(** * The default Dygraph axis scale (src/dygraph-default-scale.js)

    The module is five pure functions over JavaScript numbers.  They are
    embedded once, over an interface of the number operations the source
    uses, and read at two number systems:

    - [binary64]: IEEE 754 double precision, the numbers JavaScript has,
      with signed zeros, infinities, NaN and round-to-nearest arithmetic
      ([SpecFloat] of the Standard Library at [prec = 53], [emax = 1024]);
    - [ideal]: the real numbers extended by the two infinities and NaN,
      with exact arithmetic.  It is the reading in which "equal up to
      floating-point rounding" is plain equality.
*)

From Stdlib Require Import ZArith Bool String Lia.
From Stdlib Require Import Floats.
From Stdlib Require Import Reals Lra.

Local Open Scope Z_scope.

(** ** JavaScript numbers, as far as the module uses them *)

Class JSNumber (number : Type) : Type := {
  (** the literals [0.0], [1.0] and [NaN] *)
  zero : number;
  one : number;
  NaN : number;
  (** [a + b], [a - b], [a * b], [a / b] *)
  add : number -> number -> number;
  sub : number -> number -> number;
  mul : number -> number -> number;
  div : number -> number -> number;
  (** [a === b] on two numbers *)
  strict_eq : number -> number -> bool;
  (** the globals [isFinite(a)] and [isNaN(a)] *)
  isFinite : number -> bool;
  isNaN : number -> bool;
  (** [Math.pow(10, a)]: the module raises no other base *)
  Math_pow10 : number -> number
}.

(** What the module imports from ./dygraph-utils, which is not part of the
    sources at hand: the module is embedded over any implementation. *)
Class Utils (number : Type) : Type := {
  (** [utils.log10(x)] *)
  log10 : number -> number;
  (** [utils.logRangeFraction(r0, r1, pct)] *)
  logRangeFraction : number -> number -> number -> number
}.

(** ** The graph: only [graph.attributes_.getForAxis(name, axis)] is used,
    and only for its truth value. *)

Record DygraphOptions : Type := {
  getForAxis : string -> nat -> bool
}.

Record Dygraph : Type := {
  attributes_ : DygraphOptions
}.

Module DygraphDefaultScale.
Section Scale.

Context {number : Type} {N : JSNumber number} {U : Utils number}.

(** lines 30-35 *)
Definition scaledValueToDataPoint (graph : Dygraph) (axis : nat)
    (sv : number) : number :=
  if negb (getForAxis (attributes_ graph) "logscale" axis) then sv
  else Math_pow10 sv.

(** lines 44-49 *)
Definition dataPointToScaledValue (graph : Dygraph) (axis : nat)
    (v : number) : number :=
  if negb (getForAxis (attributes_ graph) "logscale" axis) then v
  else log10 v.

(** lines 61-78.  [range_value] is seeded with one of the bounds and
    overwritten in each of the four branches. *)
Definition relativeScaledValueToDataPoint (graph : Dygraph) (axis : nat)
    (rsv range_start range_end : number) (invert : bool) : number :=
  let range_width := sub range_end range_start in
  let range_value := if invert then range_end else range_start in
  let range_value :=
    if negb (getForAxis (attributes_ graph) "logscale" axis) then
      if invert then sub range_end (mul rsv range_width)
      else add range_start (mul rsv range_width)
    else
      if invert then logRangeFraction range_end range_start rsv
      else logRangeFraction range_start range_end rsv in
  range_value.

(** lines 91-116 *)
Definition dataPointToRelativeScaledValue (graph : Dygraph) (axis : nat)
    (value range_start range_end : number) (invert : bool) : number :=
  let scaled_value := if invert then one else zero in
  let scaled_value :=
    if negb (getForAxis (attributes_ graph) "logscale" axis) then
      let range_width := sub range_end range_start in
      let range_width :=
        if strict_eq range_width zero then one else range_width in
      div (sub value range_start) range_width
    else
      let log_range_start := log10 range_start in
      let log_range_end := log10 range_end in
      let log_range_width := sub log_range_end log_range_start in
      let log_range_width :=
        if strict_eq log_range_width zero then one else log_range_width in
      let scaled_value :=
        div (sub (log10 value) log_range_start) log_range_width in
      if negb (isFinite scaled_value) then NaN else scaled_value in
  let scaled_value :=
    if invert then sub one scaled_value else scaled_value in
  scaled_value.

(** lines 126-144 *)
Definition rangeError (graph : Dygraph) (axis : nat)
    (range_start range_end : number) : bool :=
  if negb (getForAxis (attributes_ graph) "logscale" axis) then false
  else
    let log_range_start := log10 range_start in
    let log_range_end := log10 range_end in
    let log_range_width := sub log_range_end log_range_start in
    let log_range_width :=
      if strict_eq log_range_width zero then one else log_range_width in
    let log_scale := div one log_range_width in
    if negb (isFinite log_scale) || isNaN log_scale ||
       negb (isFinite log_range_width) || isNaN log_range_width
    then true
    else false.

End Scale.
End DygraphDefaultScale.

(** ** IEEE 754 double precision *)

Module Binary64.

(** A double, as [SpecFloat] has it: a signed zero, a signed infinity,
    NaN, or [(-1)^s * m * 2^e]. *)
Definition double : Type := spec_float.

(** Decimal literals go through the kernel's floats. *)
Definition of_float (f : float) : double := Prim2SF f.

Definition valid (x : double) : bool := SpecFloat.valid_binary prec emax x.

Definition is_finite (x : double) : bool :=
  match x with
  | S754_zero _ | S754_finite _ _ _ => true
  | S754_infinity _ | S754_nan => false
  end.

Definition is_nan (x : double) : bool :=
  match x with
  | S754_nan => true
  | _ => false
  end.

Definition pos_zero : double := S754_zero false.
Definition double_one : double := Eval vm_compute in of_float 1.

(** Equal up to [2^-30]: how the results of the elementary functions,
    which are fixed up to rounding only, are compared. *)
Definition close_to (x y : double) : bool :=
  SFltb (SFabs (SF64sub x y)) (of_float 0x1p-30).

(** *** The elementary functions

    ECMAScript leaves [Math.log] and [Math.pow] "implementation-
    approximated" away from their special cases.  The model works in
    fixed point on integers, [P] bits for intermediate values and [K] bits
    for logarithms, and rounds the result once, to nearest. *)

Definition P : Z := 200.
Definition K : Z := 100.
Definition Kbits : nat := 100.

(** The fraction bits of [log2 y] for [y] in [[1, 2)], one per squaring. *)
Fixpoint log2_bits (n : nat) (y acc : Z) : Z :=
  match n with
  | O => acc
  | S n' =>
      let y2 := Z.shiftr (y * y) P in
      if 2 ^ (P + 1) <=? y2
      then log2_bits n' (Z.shiftr y2 1) (2 * acc + 1)
      else log2_bits n' y2 (2 * acc)
  end.

(** [log2 (m * 2^e)], scaled by [2^K]. *)
Definition log2_fixed (m : positive) (e : Z) : Z :=
  let d := Zpos (digits2_pos m) in
  (e + d - 1) * 2 ^ K + log2_bits Kbits (Z.shiftl (Zpos m) (P - (d - 1))) 0.

Definition LOG2_10 : Z := Eval vm_compute in log2_fixed 5 1.

(** [2^(f / 2^K)] for [0 <= f < 2^K], scaled by [2^P]: the product of
    the roots [2^(1/2)], [2^(1/4)], ... selected by the bits of [f]. *)
Fixpoint exp2_bits (n : nat) (i : Z) (s acc f : Z) : Z :=
  match n with
  | O => acc
  | S n' =>
      let s' := Z.sqrt (Z.shiftl s P) in
      exp2_bits n' (i + 1) s'
        (if Z.testbit f (K - i) then Z.shiftr (acc * s') P else acc) f
  end.

Definition exp2_fixed (f : Z) : Z :=
  exp2_bits Kbits 1 (2 ^ (P + 1)) (2 ^ P) f.

(** [Math.pow(10, x)].  Special cases as in ECMAScript's
    Number::exponentiate for a base above one: NaN for NaN, 1 for either
    zero, +Infinity for +Infinity, +0 for -Infinity.  Past [2^12] in
    magnitude the power is beyond every double. *)
Definition pow10 (x : double) : double :=
  match x with
  | S754_nan => S754_nan
  | S754_zero _ => double_one
  | S754_infinity s => if s then pos_zero else x
  | S754_finite s m e =>
      if 12 <? Zpos (digits2_pos m) + e then
        if s then pos_zero else S754_infinity false
      else
        let t := cond_Zopp s (Z.shiftl (Zpos m * LOG2_10) e) in
        binary_normalize prec emax
          (exp2_fixed (t mod 2 ^ K)) (Z.shiftr t K - P) false
  end.

(** Modelled from the spec: [utils.log10] of ./dygraph-utils, "base-10
    logarithm, domain-safe: non-positive input yields a non-finite result
    rather than throwing".  Zero gives -Infinity and a negative number
    NaN, as [Math.log] does. *)
Definition utils_log10 (x : double) : double :=
  match x with
  | S754_nan => S754_nan
  | S754_zero _ => S754_infinity true
  | S754_infinity s => if s then S754_nan else x
  | S754_finite true _ _ => S754_nan
  | S754_finite false m e =>
      binary_normalize prec emax
        (log2_fixed m e * 2 ^ K / LOG2_10) (- K) false
  end.

(** Modelled from the spec: [utils.logRangeFraction] of ./dygraph-utils,
    "returns the data value at logarithmic-interpolation fraction [frac]
    between two positive bounds". *)
Definition utils_logRangeFraction (r0 r1 pct : double) : double :=
  pow10 (SF64add (utils_log10 r0)
                 (SF64mul pct (SF64sub (utils_log10 r1) (utils_log10 r0)))).

#[global] Instance number64 : JSNumber double := {
  zero := pos_zero;
  one := double_one;
  NaN := S754_nan;
  add := SF64add;
  sub := SF64sub;
  mul := SF64mul;
  div := SF64div;
  strict_eq := SFeqb;
  isFinite := is_finite;
  isNaN := is_nan;
  Math_pow10 := pow10
}.

Definition utils64 : Utils double :=
  Build_Utils double utils_log10 utils_logRangeFraction.

(** *** Doubles as real numbers

    What a finite double stands for, and what it means for a double to be
    the rounding of a real: the vocabulary of the error bounds proved
    further down. *)

(** [2^e], for any integer [e]. *)
Definition bpow (e : Z) : R := powerRZ 2 e.
Arguments bpow : simpl never.

(** The real a finite double stands for; 0 for the zeros, and for the
    infinities and NaN, which stand for no real. *)
Definition real_value (x : double) : R :=
  match x with
  | S754_finite s m e => (IZR (cond_Zopp s (Zpos m)) * bpow e)%R
  | _ => 0%R
  end.

(** A record of [shr] locates the real [x]: its mantissa is the integer
    part of [x], the round bit tells whether the half is reached and the
    sticky bit whether anything is left beyond. *)
Definition located (r : shr_record) (x : R) : Prop :=
  match shr_r r, shr_s r with
  | false, false => x = IZR (shr_m r)
  | false, true => (IZR (shr_m r) < x < IZR (shr_m r) + / 2)%R
  | true, false => x = (IZR (shr_m r) + / 2)%R
  | true, true => (IZR (shr_m r) + / 2 < x < IZR (shr_m r) + 1)%R
  end.

Definition signed (s : bool) (v : R) : R := if s then (- v)%R else v.

(** The double [r] is what rounding the real [z] to nearest gives: a
    valid double of the sign of [z], within half a unit in the last place
    of it (so within [2^-53] of it in relative terms, or within [2^-1075]
    where doubles are subnormal); a zero only from within half the
    smallest double, an infinity only from half a unit past the largest
    one. *)
Definition rounding_of (z : R) (r : double) : Prop :=
  valid r = true /\
  match r with
  | S754_nan => False
  | S754_infinity s => (bpow 1024 - bpow 970 <= signed s z)%R
  | S754_zero s => (0 <= signed s z)%R /\ (Rabs z <= bpow (-1075))%R
  | S754_finite s _ e =>
      (0 < signed s z)%R /\
      (Rabs (real_value r - z) <= / 2 * bpow e)%R /\
      (Rabs (real_value r - z) <= bpow (-53) * Rabs z \/
       Rabs (real_value r - z) <= bpow (-1075))%R
  end.

(** The floating-point tolerance of the linear round trip: eight units of
    relative rounding error on [rsv] and on the bounds measured against
    the width, and a term for results that fall among the subnormals. *)
Definition roundtrip_tolerance (rsv near far width : R) : R :=
  (bpow (-50) * (1 + Rabs rsv + (Rabs near + Rabs far) / Rabs width)
   + bpow (-1072) * (1 + / Rabs width))%R.

(** The tolerance of the logarithmic round trip, for helpers that agree
    with each other up to [delta]. *)
Definition log_roundtrip_tolerance (delta rsv width : R) : R :=
  (2 * delta / Rabs width
   + (1 + Rabs rsv) * (bpow (-49) + bpow (-1072) * (1 + / Rabs width)))%R.

(** The largest double whose power of ten is finite, 308.2547155599167,
    and the smallest whose power of ten is not zero,
    -323.60724533877976. *)
Definition pow10_overflow_threshold : double :=
  Eval vm_compute in of_float 0x1.34413509f79fep+8.
Definition pow10_underflow_threshold : double :=
  Eval vm_compute in of_float (-0x1.439b746e36b52p+8).

(** The real that [pow10] rounds, for the scaled exponent [t]. *)
Definition pow10_exact (t : Z) : R :=
  (IZR (exp2_fixed (t mod 2 ^ K)) * bpow (t / 2 ^ K - P))%R.

End Binary64.

(** ** Exact arithmetic: the reals with two infinities and NaN *)

Module Ideal.

Local Open Scope R_scope.

Inductive xreal : Type :=
| XNaN
| XInf (neg : bool)
| XFin (r : R).

Definition is_zero (r : R) : bool := if Req_dec_T r 0 then true else false.
Definition is_neg (r : R) : bool := if Rlt_dec r 0 then true else false.

Definition xopp (x : xreal) : xreal :=
  match x with
  | XNaN => XNaN
  | XInf s => XInf (negb s)
  | XFin r => XFin (- r)
  end.

Definition xadd (x y : xreal) : xreal :=
  match x, y with
  | XNaN, _ | _, XNaN => XNaN
  | XInf s, XInf s' => if Bool.eqb s s' then x else XNaN
  | XInf _, XFin _ => x
  | XFin _, XInf _ => y
  | XFin a, XFin b => XFin (a + b)
  end.

Definition xsub (x y : xreal) : xreal := xadd x (xopp y).

Definition xmul (x y : xreal) : xreal :=
  match x, y with
  | XNaN, _ | _, XNaN => XNaN
  | XInf s, XInf s' => XInf (xorb s s')
  | XInf s, XFin b => if is_zero b then XNaN else XInf (xorb s (is_neg b))
  | XFin a, XInf s => if is_zero a then XNaN else XInf (xorb (is_neg a) s)
  | XFin a, XFin b => XFin (a * b)
  end.

(** There is one zero, and it divides as +0 does. *)
Definition xdiv (x y : xreal) : xreal :=
  match x, y with
  | XNaN, _ | _, XNaN => XNaN
  | XInf _, XInf _ => XNaN
  | XInf s, XFin b => XInf (xorb s (is_neg b))
  | XFin _, XInf _ => XFin 0
  | XFin a, XFin b =>
      if is_zero b then (if is_zero a then XNaN else XInf (is_neg a))
      else XFin (a / b)
  end.

Definition xeq (x y : xreal) : bool :=
  match x, y with
  | XInf s, XInf s' => Bool.eqb s s'
  | XFin a, XFin b => if Req_dec_T a b then true else false
  | _, _ => false
  end.

Definition is_finite (x : xreal) : bool :=
  match x with
  | XFin _ => true
  | _ => false
  end.

Definition is_nan (x : xreal) : bool :=
  match x with
  | XNaN => true
  | _ => false
  end.

(** [Math.pow(10, x)], with the special cases of the double model. *)
Definition pow10 (x : xreal) : xreal :=
  match x with
  | XNaN => XNaN
  | XInf s => if s then XFin 0 else x
  | XFin r => XFin (Rpower 10 r)
  end.

(** Modelled from the spec: [utils.log10] of ./dygraph-utils, "base-10
    logarithm, domain-safe: non-positive input yields a non-finite result
    rather than throwing". *)
Definition utils_log10 (x : xreal) : xreal :=
  match x with
  | XNaN => XNaN
  | XInf s => if s then XNaN else x
  | XFin r =>
      if is_neg r then XNaN
      else if is_zero r then XInf true
      else XFin (ln r / ln 10)
  end.

(** Modelled from the spec: [utils.logRangeFraction] of ./dygraph-utils,
    "returns the data value at logarithmic-interpolation fraction [frac]
    between two positive bounds". *)
Definition utils_logRangeFraction (r0 r1 pct : xreal) : xreal :=
  pow10 (xadd (utils_log10 r0)
              (xmul pct (xsub (utils_log10 r1) (utils_log10 r0)))).

#[global] Instance number_ideal : JSNumber xreal := {
  zero := XFin 0;
  one := XFin 1;
  NaN := XNaN;
  add := xadd;
  sub := xsub;
  mul := xmul;
  div := xdiv;
  strict_eq := xeq;
  isFinite := is_finite;
  isNaN := is_nan;
  Math_pow10 := pow10
}.

Definition utils_ideal : Utils xreal :=
  Build_Utils xreal utils_log10 utils_logRangeFraction.

End Ideal.

(** ** Graphs to run the functions on *)

(** Whether an axis is logarithmic: the query each function opens with. *)
Definition logscale (graph : Dygraph) (axis : nat) : bool :=
  getForAxis (attributes_ graph) "logscale" axis.

(** A graph whose only option is "logscale", set on the axes [is_log]. *)
Definition graph_of (is_log : nat -> bool) : Dygraph :=
  {| attributes_ :=
       {| getForAxis := fun name axis =>
            String.eqb name "logscale" && is_log axis |} |}.

(** Axis 0 is linear and axis 1 logarithmic. *)
Definition sample_graph : Dygraph := graph_of (Nat.eqb 1).

(** The quotient the logarithmic branch of dataPointToRelativeScaledValue
    forms (line 107) before it tests [isFinite]. *)
Definition log_quotient {number : Type} {N : JSNumber number}
    {U : Utils number} (value range_start range_end : number) : number :=
  let log_range_width := sub (log10 range_end) (log10 range_start) in
  div (sub (log10 value) (log10 range_start))
      (if strict_eq log_range_width zero then one else log_range_width).

(** * Properties *)

Import DygraphDefaultScale.

(** ** The linear path, in every number system *)

Section Linear.

Context {number : Type} {N : JSNumber number} {U : Utils number}.
Variables (graph : Dygraph) (axis : nat).
Hypothesis Hlinear : logscale graph axis = false.

Lemma scaledValueToDataPoint_linear_id (sv : number) :
  scaledValueToDataPoint graph axis sv = sv.
Proof using Hlinear.
  unfold scaledValueToDataPoint. fold (logscale graph axis).
  now rewrite Hlinear.
Qed.

Lemma dataPointToScaledValue_linear_id (v : number) :
  dataPointToScaledValue graph axis v = v.
Proof using Hlinear.
  unfold dataPointToScaledValue. fold (logscale graph axis).
  now rewrite Hlinear.
Qed.

Lemma relativeScaledValueToDataPoint_linear_eq
    (rsv range_start range_end : number) (invert : bool) :
  relativeScaledValueToDataPoint graph axis rsv range_start range_end invert =
  if invert then sub range_end (mul rsv (sub range_end range_start))
  else add range_start (mul rsv (sub range_end range_start)).
Proof using Hlinear.
  unfold relativeScaledValueToDataPoint. fold (logscale graph axis).
  now rewrite Hlinear.
Qed.

Lemma dataPointToRelativeScaledValue_linear_eq
    (value range_start range_end : number) (invert : bool) :
  dataPointToRelativeScaledValue graph axis value range_start range_end invert =
  let range_width := sub range_end range_start in
  let s := div (sub value range_start)
               (if strict_eq range_width zero then one else range_width) in
  if invert then sub one s else s.
Proof using Hlinear.
  unfold dataPointToRelativeScaledValue. fold (logscale graph axis).
  now rewrite Hlinear.
Qed.

Lemma rangeError_linear_false (range_start range_end : number) :
  rangeError graph axis range_start range_end = false.
Proof using Hlinear.
  unfold rangeError. fold (logscale graph axis). now rewrite Hlinear.
Qed.

End Linear.

(** ** The logarithmic path, in every number system *)

Section Logarithmic.

Context {number : Type} {N : JSNumber number} {U : Utils number}.
Variables (graph : Dygraph) (axis : nat).
Hypothesis Hlog : logscale graph axis = true.

Lemma scaledValueToDataPoint_log_eq (sv : number) :
  scaledValueToDataPoint graph axis sv = Math_pow10 sv.
Proof using Hlog.
  unfold scaledValueToDataPoint. fold (logscale graph axis).
  now rewrite Hlog.
Qed.

Lemma dataPointToScaledValue_log_eq (v : number) :
  dataPointToScaledValue graph axis v = log10 v.
Proof using Hlog.
  unfold dataPointToScaledValue. fold (logscale graph axis).
  now rewrite Hlog.
Qed.

Lemma relativeScaledValueToDataPoint_log_eq
    (rsv range_start range_end : number) (invert : bool) :
  relativeScaledValueToDataPoint graph axis rsv range_start range_end invert =
  if invert then logRangeFraction range_end range_start rsv
  else logRangeFraction range_start range_end rsv.
Proof using Hlog.
  unfold relativeScaledValueToDataPoint. fold (logscale graph axis).
  now rewrite Hlog.
Qed.

Lemma dataPointToRelativeScaledValue_log_eq
    (value range_start range_end : number) (invert : bool) :
  dataPointToRelativeScaledValue graph axis value range_start range_end invert =
  let q := log_quotient value range_start range_end in
  let s := if isFinite q then q else NaN in
  if invert then sub one s else s.
Proof using Hlog.
  unfold dataPointToRelativeScaledValue, log_quotient.
  fold (logscale graph axis).
  rewrite Hlog. cbn. now destruct (isFinite _).
Qed.

Lemma rangeError_log_eq (range_start range_end : number) :
  rangeError graph axis range_start range_end =
  let log_range_width := sub (log10 range_end) (log10 range_start) in
  let log_range_width :=
    if strict_eq log_range_width zero then one else log_range_width in
  let log_scale := div one log_range_width in
  negb (isFinite log_scale) || isNaN log_scale ||
  negb (isFinite log_range_width) || isNaN log_range_width.
Proof using Hlog.
  unfold rangeError. fold (logscale graph axis). rewrite Hlog. cbn.
  now destruct (_ || _).
Qed.

End Logarithmic.

(** ** Facts of double arithmetic *)

Section DoubleFacts.

Import Binary64.

Lemma one_is_not_zero : SFeqb double_one pos_zero = false.
Proof. reflexivity. Qed.

Lemma nonfinite_is_not_zero (x : double) :
  is_finite x = false -> SFeqb x pos_zero = false.
Proof. now destruct x as [s|[|]| |s m e]. Qed.

(** An infinity or a NaN on either side of a subtraction, or in the
    numerator of a division, stays one. *)
Lemma sub_nonfinite_l (x y : double) :
  is_finite x = false -> is_finite (SF64sub x y) = false.
Proof.
  destruct x as [s|[|]| |s m e]; try discriminate; intros _;
    now destruct y as [t|[|]| |t n f].
Qed.

Lemma sub_nonfinite_r (x y : double) :
  is_finite y = false -> is_finite (SF64sub x y) = false.
Proof.
  destruct y as [t|[|]| |t n f]; try discriminate; intros _;
    now destruct x as [s|[|]| |s m e].
Qed.

Lemma div_nonfinite_l (x y : double) :
  is_finite x = false -> is_finite (SF64div x y) = false.
Proof.
  destruct x as [s|[|]| |s m e]; try discriminate; intros _;
    now destruct y as [t|[|]| |t n f].
Qed.

Lemma sub_nan_r (x : double) : SF64sub x S754_nan = S754_nan.
Proof. now destruct x. Qed.

(** Shifting a mantissa right and rounding it keep it non-negative, so
    rounding never takes the NaN branch. *)
Lemma shr_1_nonneg (r : shr_record) : 0 <= shr_m r -> 0 <= shr_m (shr_1 r).
Proof.
  destruct r as [m r s]; destruct m as [|[p|p|]|[p|p|]]; simpl; lia.
Qed.

Lemma iter_shr_1_nonneg (p : positive) :
  forall r, 0 <= shr_m r -> 0 <= shr_m (SpecFloat.iter_pos shr_1 p r).
Proof.
  induction p as [p IH|p IH|]; simpl; intros r Hr.
  - apply IH, IH, shr_1_nonneg, Hr.
  - apply IH, IH, Hr.
  - apply shr_1_nonneg, Hr.
Qed.

Lemma shr_fexp_nonneg (m e : Z) (l : location) :
  0 <= m -> 0 <= shr_m (fst (shr_fexp prec emax m e l)).
Proof.
  intros Hm. unfold shr_fexp, shr.
  assert (H0 : 0 <= shr_m (shr_record_of_loc m l))
    by (now destruct l as [|[| |]]).
  destruct (_ - e) as [|p|p]; simpl; auto using iter_shr_1_nonneg.
Qed.

Lemma round_nearest_even_nonneg (m : Z) (l : location) :
  0 <= m -> 0 <= round_nearest_even m l.
Proof.
  intros Hm. destruct l as [|[| |]]; simpl; try lia.
  destruct (Z.even m); lia.
Qed.

Lemma binary_round_aux_not_nan (sx : bool) (mx ex : Z) (lx : location) :
  0 <= mx -> is_nan (binary_round_aux prec emax sx mx ex lx) = false.
Proof.
  intros Hm. unfold binary_round_aux.
  pose proof (shr_fexp_nonneg mx ex lx Hm) as H1.
  destruct (shr_fexp prec emax mx ex lx) as [mrs' e']. simpl in H1.
  pose proof (shr_fexp_nonneg _ e' loc_Exact
                (round_nearest_even_nonneg _ (loc_of_shr_record mrs') H1))
    as H2.
  destruct (shr_fexp prec emax _ e' loc_Exact) as [mrs'' e'']. simpl in H2.
  destruct (shr_m mrs'') as [|p|p]; try reflexivity; try lia.
  now destruct (e'' <=? emax - prec).
Qed.

Lemma binary_normalize_not_nan (m e : Z) (szero : bool) :
  is_nan (binary_normalize prec emax m e szero) = false.
Proof.
  unfold binary_normalize, binary_round.
  destruct m as [|p|p]; try reflexivity;
    destruct (shl_align _ _ _) as [mz ez];
    now apply binary_round_aux_not_nan.
Qed.

Lemma sub_not_nan_l (x y : double) :
  is_finite x = true -> is_nan y = false -> is_nan (SF64sub x y) = false.
Proof.
  destruct x as [s| | |s m e]; try discriminate; intros _;
    destruct y as [t|t| |t n f]; try discriminate; intros _;
    try reflexivity; try now destruct s, t.
  apply binary_normalize_not_nan.
Qed.

Lemma div_not_nan (x y : double) :
  is_nan x = false -> is_finite y = true -> SFeqb y pos_zero = false ->
  is_nan (SF64div x y) = false.
Proof.
  destruct y as [t| | |t n f]; try discriminate; intros Hx _ _;
    destruct x as [s|s| |s m e]; try discriminate; try reflexivity.
  unfold SF64div, SFdiv, SFdiv_core_binary.
  set (m' := match _ with Z0 => Zpos m | Zpos _ => _ | Zneg _ => 0 end).
  assert (Hm' : 0 <= m').
  { subst m'. destruct (_ - _) as [|p|p]; try lia.
    apply Z.shiftl_nonneg. lia. }
  pose proof (Z_div_mod m' (Zpos n) eq_refl) as Hdm.
  destruct (Z.div_eucl m' (Zpos n)) as [q r].
  apply binary_round_aux_not_nan. nia.
Qed.

(** A finite double minus itself is +0. *)
Lemma sub_diag (x : double) :
  is_finite x = true -> SF64sub x x = pos_zero.
Proof.
  destruct x as [s| | |s m e]; try discriminate; intros _.
  - now destruct s.
  - unfold SF64sub, SFsub. now rewrite Z.sub_diag.
Qed.

End DoubleFacts.

(** ** The logarithmic path on doubles, over any [utils] *)

Section DoubleLogarithmic.

Import Binary64.
Context {U : Utils double}.
Variables (graph : Dygraph) (axis : nat).
Hypothesis Hlog : logscale graph axis = true.

Lemma log_nonfinite_quotient_gives_NaN
    (value range_start range_end : double) (invert : bool) :
  is_finite (log_quotient value range_start range_end) = false ->
  dataPointToRelativeScaledValue graph axis value range_start range_end invert
  = S754_nan.
Proof using Hlog.
  intros Hq. rewrite (dataPointToRelativeScaledValue_log_eq _ _ Hlog).
  cbv zeta. change (@isFinite double number64) with is_finite.
  rewrite Hq. now destruct invert.
Qed.

Lemma log_finite_quotient_is_returned
    (value range_start range_end : double) (invert : bool) :
  is_finite (log_quotient value range_start range_end) = true ->
  dataPointToRelativeScaledValue graph axis value range_start range_end invert
  = if invert
    then SF64sub double_one (log_quotient value range_start range_end)
    else log_quotient value range_start range_end.
Proof using Hlog.
  intros Hq. rewrite (dataPointToRelativeScaledValue_log_eq _ _ Hlog).
  cbv zeta. change (@isFinite double number64) with is_finite.
  now rewrite Hq.
Qed.

Lemma log_nonfinite_value_gives_NaN
    (value range_start range_end : double) (invert : bool) :
  is_finite (log10 value) = false ->
  dataPointToRelativeScaledValue graph axis value range_start range_end invert
  = S754_nan.
Proof using Hlog.
  intros Hv. apply log_nonfinite_quotient_gives_NaN.
  unfold log_quotient. now apply div_nonfinite_l, sub_nonfinite_l.
Qed.

Lemma rangeError_nonfinite_log (range_start range_end : double) :
  is_finite (log10 range_start) = false \/
  is_finite (log10 range_end) = false ->
  rangeError graph axis range_start range_end = true.
Proof using Hlog.
  intros H. rewrite (rangeError_log_eq _ _ Hlog). cbn -[SF64sub SF64div].
  assert (Hw : is_finite (SF64sub (log10 range_end) (log10 range_start))
               = false)
    by (destruct H; [now apply sub_nonfinite_r | now apply sub_nonfinite_l]).
  rewrite (nonfinite_is_not_zero _ Hw), Hw. cbn.
  now rewrite orb_true_r.
Qed.

Lemma rangeError_zero_log_width (range_start range_end : double) :
  SFeqb (SF64sub (log10 range_end) (log10 range_start)) pos_zero = true ->
  rangeError graph axis range_start range_end = false.
Proof using Hlog.
  intros Hw. rewrite (rangeError_log_eq _ _ Hlog). cbn -[SF64sub SF64div].
  now rewrite Hw.
Qed.

End DoubleLogarithmic.

(** ** Rounding stays finite below the overflow threshold *)

Section RoundingIsFinite.

Import Binary64.

Lemma digits2_pos_size (p : positive) : digits2_pos p = Pos.size p.
Proof. induction p; simpl; congruence. Qed.

Lemma pos_lt_pow_digits (p : positive) : Zpos p < 2 ^ Zpos (digits2_pos p).
Proof.
  rewrite digits2_pos_size.
  pose proof (Pos.size_gt p) as H.
  apply Pos2Z.pos_lt_pos in H. now rewrite Pos2Z.inj_pow in H.
Qed.

Lemma Zdigits2_le (m D : Z) : 0 <= D -> 0 <= m < 2 ^ D -> Zdigits2 m <= D.
Proof.
  intros HD [H0 Hm]. destruct m as [|p|p]; simpl; try lia.
  rewrite digits2_pos_size.
  pose proof (Pos.size_le p) as H.
  apply Pos2Z.pos_le_pos in H. rewrite Pos2Z.inj_pow in H.
  change (Zpos p~0) with (2 * Zpos p) in H.
  assert (H2 : 2 ^ Zpos (Pos.size p) < 2 ^ (D + 1))
    by (rewrite Z.pow_add_r, Z.pow_1_r by lia; lia).
  apply Z.pow_lt_mono_r_iff in H2; lia.
Qed.

Lemma shr_1_le (r : shr_record) :
  0 <= shr_m r -> 0 <= shr_m (shr_1 r) <= shr_m r.
Proof.
  destruct r as [m r s]; destruct m as [|[p|p|]|[p|p|]]; simpl; lia.
Qed.

Lemma iter_shr_1_le (p : positive) :
  forall r, 0 <= shr_m r ->
            0 <= shr_m (SpecFloat.iter_pos shr_1 p r) <= shr_m r.
Proof.
  induction p as [p IH|p IH|]; simpl; intros r Hr.
  - pose proof (shr_1_le r Hr) as H1.
    pose proof (IH _ (proj1 H1)) as H2.
    pose proof (IH _ (proj1 H2)) as H3. lia.
  - pose proof (IH _ Hr) as H2.
    pose proof (IH _ (proj1 H2)) as H3. lia.
  - now apply shr_1_le.
Qed.

(** [shr_fexp] only shrinks the mantissa, and moves the exponent up to
    the one the format prescribes. *)
Lemma shr_fexp_bounds (m e : Z) (l : location) :
  0 <= m ->
  0 <= shr_m (fst (shr_fexp prec emax m e l)) <= m /\
  snd (shr_fexp prec emax m e l) = Z.max e (fexp prec emax (Zdigits2 m + e)).
Proof.
  intros Hm. unfold shr_fexp, shr.
  assert (H0 : shr_m (shr_record_of_loc m l) = m)
    by (now destruct l as [|[| |]]).
  destruct (_ - e) as [|p|p] eqn:E; simpl.
  - rewrite H0. lia.
  - pose proof (iter_shr_1_le p (shr_record_of_loc m l)) as H.
    rewrite H0 in H. lia.
  - rewrite H0. lia.
Qed.

Lemma round_nearest_even_le (m : Z) (l : location) :
  0 <= m -> 0 <= round_nearest_even m l <= m + 1.
Proof.
  intros Hm. destruct l as [|[| |]]; simpl; try lia.
  destruct (Z.even m); lia.
Qed.

Lemma binary_round_aux_finite (sx : bool) (mx ex : Z) (lx : location)
    (D E : Z) :
  0 <= D -> 0 <= mx < 2 ^ D -> ex <= E ->
  D + 1 + Z.max E (Z.max (D + E - 53) (-1074)) - 53 <= 971 ->
  Z.max E (Z.max (D + E - 53) (-1074)) <= 971 ->
  is_finite (binary_round_aux prec emax sx mx ex lx) = true.
Proof.
  intros HD Hm He HB1 HB2. unfold binary_round_aux.
  destruct (shr_fexp_bounds mx ex lx (proj1 Hm)) as [H1 H1e].
  pose proof (Zdigits2_le mx D HD Hm) as Hd.
  destruct (shr_fexp prec emax mx ex lx) as [mrs' e']. simpl in H1, H1e.
  pose proof (round_nearest_even_le (shr_m mrs') (loc_of_shr_record mrs')
                (proj1 H1)) as Hr.
  set (m2 := round_nearest_even _ _) in *.
  destruct (shr_fexp_bounds m2 e' loc_Exact (proj1 Hr)) as [H2 H2e].
  assert (Hd2 : Zdigits2 m2 <= D + 1).
  { apply Zdigits2_le; [lia|]. rewrite Z.pow_add_r, Z.pow_1_r by lia. lia. }
  destruct (shr_fexp prec emax m2 e' loc_Exact) as [mrs'' e''].
  simpl in H2, H2e.
  destruct (shr_m mrs'') as [|p|p]; try reflexivity; try lia.
  assert (Hle : e'' <= emax - prec).
  { unfold fexp, SpecFloat.emin, prec, emax in *. lia. }
  apply Z.leb_le in Hle. now rewrite Hle.
Qed.

Lemma iter_xO_value (k m : positive) :
  Zpos (Pos.iter xO m k) = Zpos m * 2 ^ Zpos k.
Proof.
  induction k as [|k IH] using Pos.peano_ind.
  - simpl. lia.
  - rewrite Pos.iter_succ, Pos2Z.inj_succ, Z.pow_succ_r by lia.
    change (Zpos (Pos.iter xO m k)~0) with (2 * Zpos (Pos.iter xO m k)).
    rewrite IH. lia.
Qed.

(** An integer below [2^D] at a non-positive exponent rounds to a finite
    double, for every [D] the fixed-point code reaches. *)
Lemma binary_normalize_finite (m e D : Z) (szero : bool) :
  53 <= D <= 1000 -> Z.abs m < 2 ^ D -> e <= 0 -> 2 * D + e <= 1000 ->
  is_finite (binary_normalize prec emax m e szero) = true.
Proof.
  intros HD Hm He HDe.
  assert (Hgen : forall sx p, Zpos p < 2 ^ D ->
                   is_finite (binary_round prec emax sx p e) = true).
  { intros sx p Hp. unfold binary_round, shl_align.
    pose proof (pos_lt_pow_digits p) as Hdig.
    destruct (_ - e) as [|k|k] eqn:Ek.
    - apply binary_round_aux_finite with (D := D) (E := e); lia.
    - apply binary_round_aux_finite with (D := D) (E := e); lia.
    - apply binary_round_aux_finite with (D := D) (E := e); try lia.
      rewrite iter_xO_value. split; [lia|].
      assert (Hk : Zpos k <= 53 - Zpos (digits2_pos p))
        by (unfold fexp, SpecFloat.emin, prec, emax in Ek; lia).
      apply Z.lt_le_trans with (2 ^ Zpos (digits2_pos p) * 2 ^ Zpos k);
        [nia|].
      rewrite <- Z.pow_add_r by lia. apply Z.pow_le_mono_r; lia. }
  unfold binary_normalize.
  destruct m as [|p|p]; try reflexivity; apply Hgen; lia.
Qed.

(** The fraction bits of a logarithm fill [n] binary places. *)
Lemma log2_bits_bounds (n : nat) :
  forall y acc, 0 <= acc ->
    2 ^ Z.of_nat n * acc <= log2_bits n y acc < 2 ^ Z.of_nat n * (acc + 1).
Proof.
  induction n as [|n IH]; intros y acc Hacc.
  - change (2 ^ Z.of_nat 0) with 1. cbn [log2_bits]. lia.
  - rewrite Nat2Z.inj_succ, Z.pow_succ_r by lia. cbn [log2_bits].
    destruct (_ <=? _).
    + pose proof (IH (Z.shiftr (Z.shiftr (y * y) P) 1) (2 * acc + 1)) as H.
      nia.
    + pose proof (IH (Z.shiftr (y * y) P) (2 * acc)) as H. nia.
Qed.

Lemma log2_fixed_bounds (m : positive) (e : Z) :
  valid (S754_finite false m e) = true ->
  - 1074 * 2 ^ K <= log2_fixed m e < 1024 * 2 ^ K.
Proof.
  unfold valid, valid_binary, bounded, canonical_mantissa.
  intros H. apply andb_prop in H. destruct H as [H1 H2].
  apply Z.eqb_eq in H1. apply Z.leb_le in H2.
  unfold fexp, SpecFloat.emin, prec, emax in H1, H2.
  unfold log2_fixed.
  pose proof (log2_bits_bounds Kbits
                (Z.shiftl (Zpos m) (P - (Zpos (digits2_pos m) - 1))) 0
                (Z.le_refl 0)) as Hb.
  change (Z.of_nat Kbits) with K in Hb.
  assert (HK : 0 < 2 ^ K) by (apply Z.pow_pos_nonneg; unfold K; lia).
  nia.
Qed.

(** The logarithm of a finite positive double is finite. *)
Lemma utils_log10_finite (x : double) :
  valid x = true -> is_finite x = true -> SFltb pos_zero x = true ->
  is_finite (utils_log10 x) = true.
Proof.
  destruct x as [s|s| |[|] m e]; try discriminate.
  intros Hv _ _. unfold utils_log10.
  pose proof (log2_fixed_bounds m e Hv) as Hb.
  assert (HK : 0 < 2 ^ K) by (apply Z.pow_pos_nonneg; unfold K; lia).
  assert (HL : 3 * 2 ^ K <= LOG2_10) by (now apply Z.leb_le).
  assert (Hlo : - (1024 * 2 ^ K) < log2_fixed m e * 2 ^ K / LOG2_10).
  { apply Z.lt_le_trans with (- (1024 * 2 ^ K) + 1); [lia|].
    apply Z.div_le_lower_bound; nia. }
  assert (Hhi : log2_fixed m e * 2 ^ K / LOG2_10 < 1024 * 2 ^ K).
  { apply Z.div_lt_upper_bound; nia. }
  apply binary_normalize_finite with (D := 110).
  - lia.
  - change (2 ^ 110) with (1024 * 2 ^ K). lia.
  - unfold K. lia.
  - unfold K. lia.
Qed.

End RoundingIsFinite.

(** ** The modelled [utils] meets what the properties below ask of it *)

Section ModelledUtils.

Import Binary64.

Lemma utils_log10_nonpositive (x : double) :
  SFleb x pos_zero = true -> is_finite (utils_log10 x) = false.
Proof. now destruct x as [s|[|]| |[|] m e]. Qed.

End ModelledUtils.

(** Reads the interface's operations at doubles as what they are. *)
Ltac double_ops :=
  change (@sub Binary64.double Binary64.number64) with SF64sub in *;
  change (@add Binary64.double Binary64.number64) with SF64add in *;
  change (@mul Binary64.double Binary64.number64) with SF64mul in *;
  change (@div Binary64.double Binary64.number64) with SF64div in *;
  change (@strict_eq Binary64.double Binary64.number64) with SFeqb in *;
  change (@isFinite Binary64.double Binary64.number64)
    with Binary64.is_finite in *;
  change (@isNaN Binary64.double Binary64.number64) with Binary64.is_nan in *;
  change (@zero Binary64.double Binary64.number64)
    with Binary64.pos_zero in *;
  change (@one Binary64.double Binary64.number64)
    with Binary64.double_one in *;
  change (@NaN Binary64.double Binary64.number64) with S754_nan in *.

(** ** Zero-width ranges on doubles *)

Section DoubleZeroWidth.

Import Binary64.
Context {U : Utils double}.
Variables (graph : Dygraph) (axis : nat).

Lemma linear_zero_width_not_NaN
    (value range_start range_end : double) (invert : bool) :
  logscale graph axis = false ->
  is_finite value = true -> is_finite range_start = true ->
  SFeqb (SF64sub range_end range_start) pos_zero = true ->
  is_nan (dataPointToRelativeScaledValue graph axis value range_start
            range_end invert) = false.
Proof.
  intros Hlin Hv Hs Hw.
  rewrite (dataPointToRelativeScaledValue_linear_eq _ _ Hlin).
  cbv zeta. double_ops. rewrite Hw.
  assert (Hq : is_nan (SF64div (SF64sub value range_start) double_one)
               = false).
  { apply div_not_nan; try reflexivity.
    apply sub_not_nan_l; [exact Hv|]. now destruct range_start. }
  destruct invert; [|exact Hq].
  now apply sub_not_nan_l.
Qed.

Lemma linear_point_range_is_zero (b : double) :
  logscale graph axis = false -> is_finite b = true ->
  dataPointToRelativeScaledValue graph axis b b b false = pos_zero.
Proof.
  intros Hlin Hb.
  rewrite (dataPointToRelativeScaledValue_linear_eq _ _ Hlin).
  cbv zeta. double_ops. now rewrite (sub_diag b Hb).
Qed.

Lemma log_point_range_is_zero (b : double) :
  logscale graph axis = true -> is_finite (log10 b) = true ->
  dataPointToRelativeScaledValue graph axis b b b false = pos_zero.
Proof.
  intros Hlog Hb.
  rewrite (dataPointToRelativeScaledValue_log_eq _ _ Hlog).
  unfold log_quotient. cbv zeta. double_ops.
  now rewrite (sub_diag _ Hb).
Qed.

Lemma guarded_width_not_zero (w : double) :
  SFeqb (if SFeqb w pos_zero then double_one else w) pos_zero = false.
Proof. destruct (SFeqb w pos_zero) eqn:E; [reflexivity | exact E]. Qed.

End DoubleZeroWidth.


(** ** [Math.pow(10, x)] on doubles is never NaN and never negative *)

Section PowerSign.

Import Binary64.

Lemma exp2_bits_nonneg (n : nat) :
  forall i s acc f, 0 <= s -> 0 <= acc -> 0 <= exp2_bits n i s acc f.
Proof.
  induction n as [|n IH]; intros i s acc f Hs Hacc; cbn [exp2_bits].
  - exact Hacc.
  - apply IH.
    + apply Z.sqrt_nonneg.
    + destruct (Z.testbit f (K - i)); [|exact Hacc].
      apply Z.shiftr_nonneg, Z.mul_nonneg_nonneg; [exact Hacc|].
      apply Z.sqrt_nonneg.
Qed.

Lemma exp2_fixed_nonneg (f : Z) : 0 <= exp2_fixed f.
Proof.
  apply exp2_bits_nonneg; apply Z.pow_nonneg; lia.
Qed.

Lemma binary_round_aux_not_negative (mx ex : Z) (lx : location) :
  SFltb (binary_round_aux prec emax false mx ex lx) pos_zero = false.
Proof.
  unfold binary_round_aux.
  destruct (shr_fexp prec emax mx ex lx) as [mrs' e'].
  destruct (shr_fexp prec emax _ e' loc_Exact) as [mrs'' e''].
  destruct (shr_m mrs'') as [|p|p]; try reflexivity.
  now destruct (e'' <=? emax - prec).
Qed.

Lemma binary_normalize_not_negative (m e : Z) :
  0 <= m -> SFltb (binary_normalize prec emax m e false) pos_zero = false.
Proof.
  intros Hm. unfold binary_normalize, binary_round.
  destruct m as [|p|p]; try reflexivity; try lia.
  destruct (shl_align _ _ _) as [mz ez].
  apply binary_round_aux_not_negative.
Qed.

Lemma pow10_not_NaN (x : double) :
  is_nan x = false -> is_nan (pow10 x) = false.
Proof.
  destruct x as [s|[|]| |s m e]; try discriminate; try reflexivity.
  intros _. unfold pow10.
  destruct (12 <? _); [now destruct s|].
  apply binary_normalize_not_nan.
Qed.

Lemma pow10_not_negative (x : double) : SFltb (pow10 x) pos_zero = false.
Proof.
  destruct x as [s|[|]| |s m e]; try reflexivity.
  unfold pow10.
  destruct (12 <? _); [now destruct s|].
  apply binary_normalize_not_negative, exp2_fixed_nonneg.
Qed.

End PowerSign.

(** ** Rounding in the normal range *)

Section RoundingIsNormal.
Import Binary64.

Lemma shr_1_half (r : shr_record) :
  0 <= shr_m r -> shr_m (shr_1 r) = shr_m r / 2.
Proof.
  intros H. rewrite <- Z.div2_div.
  destruct r as [m r s]; destruct m as [|[p|p|]|p]; try reflexivity.
  simpl in H. lia.
Qed.

Lemma iter_shr_1_div (p : positive) :
  forall r, 0 <= shr_m r ->
            shr_m (SpecFloat.iter_pos shr_1 p r) = shr_m r / 2 ^ Zpos p.
Proof.
  induction p as [p IH|p IH|]; simpl SpecFloat.iter_pos; intros r Hr.
  - pose proof (shr_1_le r Hr) as H1.
    pose proof (iter_shr_1_le p _ (proj1 H1)) as H2.
    rewrite IH, IH, shr_1_half by lia.
    rewrite !Z.div_div by lia. f_equal.
    assert (E : Zpos p~1 = 1 + Zpos p + Zpos p) by lia.
    rewrite E, !Z.pow_add_r by lia. ring.
  - pose proof (iter_shr_1_le p _ Hr) as H2.
    rewrite IH, IH by lia.
    rewrite !Z.div_div by lia. f_equal.
    assert (E : Zpos p~0 = Zpos p + Zpos p) by lia.
    rewrite E, !Z.pow_add_r by lia. ring.
  - rewrite shr_1_half by assumption. reflexivity.
Qed.

Lemma shr_fexp_exact (m e : Z) (l : location) :
  0 <= m -> 0 <= fexp prec emax (Zdigits2 m + e) - e ->
  shr_m (fst (shr_fexp prec emax m e l))
  = m / 2 ^ (fexp prec emax (Zdigits2 m + e) - e) /\
  snd (shr_fexp prec emax m e l) = fexp prec emax (Zdigits2 m + e).
Proof.
  intros Hm Hn. unfold shr_fexp, shr.
  assert (H0 : shr_m (shr_record_of_loc m l) = m)
    by (now destruct l as [|[| |]]).
  destruct (_ - e) as [|p|p] eqn:E; simpl fst; simpl snd.
  - rewrite H0, Z.div_1_r. lia.
  - rewrite iter_shr_1_div, H0 by lia. lia.
  - lia.
Qed.

Lemma Zdigits2_ge (m k : Z) : 2 ^ (k - 1) <= m -> 1 <= k -> k <= Zdigits2 m.
Proof.
  intros Hm Hk.
  assert (H0 : 0 < m) by (pose proof (Z.pow_pos_nonneg 2 (k - 1)); lia).
  destruct m as [|p|p]; try lia. simpl.
  pose proof (pos_lt_pow_digits p) as Hd.
  assert (H : 2 ^ (k - 1) < 2 ^ Zpos (digits2_pos p)) by lia.
  apply Z.pow_lt_mono_r_iff in H; lia.
Qed.

Lemma round_nearest_even_bounds (m : Z) (l : location) :
  m <= round_nearest_even m l <= m + 1.
Proof.
  destruct l as [|[| |]]; simpl; try lia.
  destruct (Z.even m); lia.
Qed.

Lemma shl_align_no_shift (p : positive) (e e' : Z) :
  e <= e' -> shl_align p e e' = (p, e).
Proof.
  intros H. unfold shl_align. destruct (e' - e) as [|q|q] eqn:E; try reflexivity.
  lia.
Qed.

Lemma div_pow2_bounds (M d k : Z) :
  0 <= k <= d -> 1 <= d - k ->
  2 ^ (d - 1) <= M < 2 ^ d ->
  2 ^ (d - k - 1) <= M / 2 ^ k < 2 ^ (d - k).
Proof.
  intros Hk Hd HM.
  assert (Hs : 2 ^ d = 2 ^ k * 2 ^ (d - k))
    by (rewrite <- Z.pow_add_r by lia; f_equal; lia).
  assert (Hs' : 2 ^ (d - 1) = 2 ^ k * 2 ^ (d - k - 1))
    by (rewrite <- Z.pow_add_r by lia; f_equal; lia).
  assert (Hp : 0 < 2 ^ k) by (apply Z.pow_pos_nonneg; lia).
  split; [apply Z.div_le_lower_bound; lia | apply Z.div_lt_upper_bound; lia].
Qed.

(** A positive integer whose value lies in the normal range rounds to a
    positive finite double. *)
Lemma binary_normalize_normal (M e d : Z) :
  53 <= d -> 2 ^ (d - 1) <= M < 2 ^ d ->
  - 1074 <= d + e - 53 -> d + e <= 1022 ->
  exists m' e', binary_normalize prec emax M e false = S754_finite false m' e'.
Proof.
  intros Hd HM Hlo Hhi.
  assert (Hpow : 0 < 2 ^ (d - 1)) by (apply Z.pow_pos_nonneg; lia).
  assert (HdM : Zdigits2 M = d).
  { apply Z.le_antisymm; [apply Zdigits2_le; lia | apply Zdigits2_ge; lia]. }
  assert (Hf : fexp prec emax (d + e) = d + e - 53)
    by (unfold fexp, SpecFloat.emin, prec, emax; lia).
  destruct M as [|p|p]; try lia.
  unfold binary_normalize, binary_round.
  change (Zpos (digits2_pos p)) with (Zdigits2 (Zpos p)).
  rewrite HdM, Hf, shl_align_no_shift by lia.
  unfold binary_round_aux.
  destruct (shr_fexp_exact (Zpos p) e loc_Exact) as [H1 H1e];
    [lia | rewrite HdM, Hf; lia |].
  rewrite HdM, Hf in H1, H1e.
  destruct (shr_fexp prec emax (Zpos p) e loc_Exact) as [mrs' e1].
  simpl in H1, H1e.
  assert (Hm' : 2 ^ 52 <= shr_m mrs' < 2 ^ 53).
  { rewrite H1. replace (d + e - 53 - e) with (d - 53) by lia.
    pose proof (div_pow2_bounds (Zpos p) d (d - 53)) as Hb.
    replace (d - (d - 53) - 1) with 52 in Hb by lia.
    replace (d - (d - 53)) with 53 in Hb by lia.
    apply Hb; lia. }
  pose proof (round_nearest_even_bounds (shr_m mrs')
                (loc_of_shr_record mrs')) as Hr.
  set (m2 := round_nearest_even _ _) in *.
  assert (H52 : 0 < 2 ^ 52) by reflexivity.
  assert (Hd2 : 53 <= Zdigits2 m2 <= 54).
  { split.
    - apply Zdigits2_ge; [|lia]. change (2 ^ (53 - 1)) with (2 ^ 52). lia.
    - apply Zdigits2_le; [lia|]. change (2 ^ 54) with (2 * 2 ^ 53). lia. }
  assert (Hf2 : fexp prec emax (Zdigits2 m2 + e1) = Zdigits2 m2 + e1 - 53)
    by (unfold fexp, SpecFloat.emin, prec, emax; lia).
  destruct (shr_fexp_exact m2 e1 loc_Exact) as [H2 H2e];
    [lia | rewrite Hf2; lia |].
  rewrite Hf2 in H2, H2e.
  destruct (shr_fexp prec emax m2 e1 loc_Exact) as [mrs'' e''].
  simpl in H2, H2e.
  assert (Hm'' : 0 < shr_m mrs'').
  { rewrite H2.
    assert (Hc : Zdigits2 m2 + e1 - 53 - e1 = 0 \/
                 Zdigits2 m2 + e1 - 53 - e1 = 1) by lia.
    destruct Hc as [-> | ->].
    - rewrite Z.div_1_r. lia.
    - apply Z.lt_le_trans with (2 ^ 51); [reflexivity|].
      apply Z.div_le_lower_bound; [lia|].
      change (2 ^ 1 * 2 ^ 51) with (2 ^ 52). lia. }
  destruct (shr_m mrs'') as [|m''|m'']; try lia.
  assert (Hle : e'' <= emax - prec) by (unfold emax, prec; lia).
  apply Z.leb_le in Hle. rewrite Hle. eauto.
Qed.
End RoundingIsNormal.

(** ** [Math.pow(10, x)] on doubles stays in range for moderate [x] *)

Section PowerRange.
Import Binary64.

(** The running product stays in [[1, 2]]: the roots still to come
    multiply to at most the current root. *)
Lemma exp2_bits_bounds (n : nat) :
  forall i s acc f,
    2 ^ P <= s -> 2 ^ P <= acc -> acc * s <= 2 ^ (2 * P + 1) ->
    2 ^ P <= exp2_bits n i s acc f <= 2 ^ (P + 1).
Proof.
  assert (HP : 0 < 2 ^ P) by (apply Z.pow_pos_nonneg; unfold P; lia).
  assert (H2P : 2 ^ (2 * P + 1) = 2 ^ P * 2 ^ (P + 1))
    by (rewrite <- Z.pow_add_r by (unfold P; lia); f_equal; lia).
  induction n as [|n IH]; intros i s acc f Hs Hacc Hprod; cbn [exp2_bits].
  - split; [exact Hacc|]. nia.
  - rewrite Z.shiftl_mul_pow2 by (unfold P; lia).
    pose proof (Z.sqrt_spec (s * 2 ^ P) ltac:(nia)) as [Hlo Hhi].
    set (s' := Z.sqrt (s * 2 ^ P)) in *.
    assert (Hs' : 2 ^ P <= s').
    { destruct (Z.le_gt_cases (2 ^ P) s') as [H|H]; [exact H|].
      assert (H0 : 0 <= s') by apply Z.sqrt_nonneg.
      assert (H1 : Z.succ s' * Z.succ s' <= 2 ^ P * 2 ^ P) by nia.
      nia. }
    assert (Hs's : s' <= s) by nia.
    apply IH; [exact Hs'| |].
    + destruct (Z.testbit f (K - i)); [|exact Hacc].
      rewrite Z.shiftr_div_pow2 by (unfold P; lia).
      apply Z.div_le_lower_bound; nia.
    + destruct (Z.testbit f (K - i)); [|nia].
      rewrite Z.shiftr_div_pow2 by (unfold P; lia).
      pose proof (Z.mul_div_le (acc * s') (2 ^ P) HP) as Hd.
      assert (2 ^ P * (acc * s' / 2 ^ P * s') <= 2 ^ P * 2 ^ (2 * P + 1));
        [|nia].
      apply Z.le_trans with (acc * s' * s'); [nia|].
      apply Z.le_trans with (acc * (s * 2 ^ P)); [nia|]. nia.
Qed.

Lemma exp2_fixed_bounds (f : Z) : 2 ^ P <= exp2_fixed f <= 2 ^ (P + 1).
Proof.
  unfold exp2_fixed. apply exp2_bits_bounds.
  - apply Z.pow_le_mono_r; unfold P; lia.
  - lia.
  - rewrite <- Z.pow_add_r by (unfold P; lia).
    apply Z.eq_le_incl; f_equal; lia.
Qed.

Lemma shiftl_neg_div (a n : Z) : n <= 0 -> Z.shiftl a n = a / 2 ^ (- n).
Proof. intros H. now apply Z.shiftl_div_pow2. Qed.

(** Between -300 and 300 the power is a positive finite double. *)
Lemma pow10_normal (x : double) :
  valid x = true -> SFleb (SFabs x) (of_float 300) = true ->
  is_finite (pow10 x) = true /\ SFltb pos_zero (pow10 x) = true.
Proof.
  destruct x as [s|s| |s m e]; try discriminate.
  - intros _ _. split; reflexivity.
  - intros Hv Hle.
    unfold valid, valid_binary, bounded, canonical_mantissa in Hv.
    apply andb_prop in Hv. destruct Hv as [Hc He]. apply Z.eqb_eq in Hc.
    unfold fexp, SpecFloat.emin, prec, emax in Hc.
    pose proof (pos_lt_pow_digits m) as Hdig.
    set (d := Zpos (digits2_pos m)) in *.
    change (of_float 300)
      with (S754_finite false 5277655813324800 (-44)) in Hle.
    assert (Hm : e <= -44 /\ Zpos m <= 300 * 2 ^ (- e)).
    { revert Hle. unfold SFleb, SFabs, SFcompare.
      destruct (Z.compare_spec e (-44)) as [Ee|Ee|Ee]; intros Hle.
      - subst e. split; [lia|].
        change (300 * 2 ^ (- -44)) with (Zpos 5277655813324800).
        destruct (Pos.compare_cont Eq m 5277655813324800) eqn:Em;
          try discriminate.
        + apply Pos.compare_eq in Em. subst m. lia.
        + apply Pos2Z.pos_lt_pos in Em. lia.
      - split; [lia|].
        assert (Hd : d <= 53) by lia.
        apply Z.le_trans with (2 ^ 53).
        + apply Z.lt_le_incl, Z.lt_le_trans with (2 ^ d); [exact Hdig|].
          apply Z.pow_le_mono_r; lia.
        + apply Z.le_trans with (300 * 2 ^ 45); [discriminate|].
          apply Z.mul_le_mono_nonneg_l; [lia|].
          apply Z.pow_le_mono_r; lia.
      - discriminate. }
    destruct Hm as [He44 Hm].
    assert (Hd : d <= 53) by lia.
    unfold pow10. fold d.
    assert (Hsmall : (12 <? d + e) = false) by (apply Z.ltb_ge; lia).
    rewrite Hsmall.
    rewrite shiftl_neg_div by lia.
    set (t0 := Zpos m * LOG2_10 / 2 ^ (- e)).
    assert (Hpe : 0 < 2 ^ (- e)) by (apply Z.pow_pos_nonneg; lia).
    assert (HK : 0 < 2 ^ K) by (apply Z.pow_pos_nonneg; unfold K; lia).
    assert (HL : 0 < LOG2_10 /\ 300 * LOG2_10 < 997 * 2 ^ K)
      by (split; reflexivity).
    assert (Ht0 : 0 <= t0 < 997 * 2 ^ K).
    { subst t0. split.
      - apply Z.div_pos; lia.
      - apply Z.div_lt_upper_bound; [lia|]. nia. }
    set (t := cond_Zopp s t0).
    assert (Ht : - (997 * 2 ^ K) < t < 997 * 2 ^ K)
      by (subst t; unfold cond_Zopp; destruct s; lia).
    rewrite Z.shiftr_div_pow2 by (unfold K; lia).
    assert (Hn : - 997 <= t / 2 ^ K < 997).
    { split.
      - apply Z.div_le_lower_bound; lia.
      - apply Z.div_lt_upper_bound; lia. }
    pose proof (exp2_fixed_bounds (t mod 2 ^ K)) as HM.
    set (M := exp2_fixed (t mod 2 ^ K)) in *.
    assert (HP : 2 ^ (P + 1) = 2 * 2 ^ P)
      by (rewrite Z.pow_add_r by (unfold P; lia); lia).
    assert (HP0 : 0 < 2 ^ P) by (apply Z.pow_pos_nonneg; unfold P; lia).
    assert (Hnorm : exists m' e',
               binary_normalize prec emax M (t / 2 ^ K - P) false
               = S754_finite false m' e').
    { destruct (Z.eq_dec M (2 ^ (P + 1))) as [HeqM | HneM].
      - apply binary_normalize_normal with (d := P + 2).
        + unfold P. lia.
        + replace (P + 2 - 1) with (P + 1) by lia.
          replace (2 ^ (P + 2)) with (2 * 2 ^ (P + 1))
            by (rewrite (Z.pow_add_r 2 P 2), HP by (unfold P; lia); lia).
          lia.
        + unfold P. lia.
        + unfold P. lia.
      - apply binary_normalize_normal with (d := P + 1).
        + unfold P. lia.
        + replace (P + 1 - 1) with P by lia. lia.
        + unfold P. lia.
        + unfold P. lia. }
    destruct Hnorm as (m' & e' & ->). split; reflexivity.
Qed.

End PowerRange.

(** ** Exact arithmetic *)

Section IdealFacts.
Import Ideal.
Local Open Scope R_scope.

Lemma is_zero_false (r : R) : r <> 0 -> is_zero r = false.
Proof. intros H. unfold is_zero. now destruct (Req_dec_T r 0). Qed.

Lemma is_zero_true (r : R) : r = 0 -> is_zero r = true.
Proof. intros H. unfold is_zero. now destruct (Req_dec_T r 0). Qed.

Lemma is_neg_false (r : R) : 0 <= r -> is_neg r = false.
Proof. intros H. unfold is_neg. destruct (Rlt_dec r 0); [lra | reflexivity]. Qed.

Lemma xeq_fin_false (a b : R) : a <> b -> xeq (XFin a) (XFin b) = false.
Proof. intros H. simpl. now destruct (Req_dec_T a b). Qed.

Lemma xeq_fin_true (a b : R) : a = b -> xeq (XFin a) (XFin b) = true.
Proof. intros H. simpl. now destruct (Req_dec_T a b). Qed.

Lemma ln_10_pos : 0 < ln 10.
Proof. rewrite <- ln_1. apply ln_increasing; lra. Qed.

Lemma utils_log10_pos (r : R) :
  0 < r -> utils_log10 (XFin r) = XFin (ln r / ln 10).
Proof.
  intros H. unfold utils_log10.
  rewrite is_neg_false by lra. now rewrite is_zero_false by lra.
Qed.

Lemma Rpower_10_log10 (r : R) : 0 < r -> Rpower 10 (ln r / ln 10) = r.
Proof.
  intros H. unfold Rpower.
  replace (ln r / ln 10 * ln 10) with (ln r)
    by (field; pose proof ln_10_pos; lra).
  now apply exp_ln.
Qed.

Lemma log10_Rpower_10 (y : R) : ln (Rpower 10 y) / ln 10 = y.
Proof.
  unfold Rpower. rewrite ln_exp. field. pose proof ln_10_pos; lra.
Qed.

Lemma Rpower_10_pos (y : R) : 0 < Rpower 10 y.
Proof. apply exp_pos. Qed.

Lemma log10_injective (a b : R) :
  0 < a -> 0 < b -> a <> b -> ln b / ln 10 + - (ln a / ln 10) <> 0.
Proof.
  intros Ha Hb Hab E. apply Hab. apply ln_inv; try assumption.
  pose proof ln_10_pos.
  assert (E' : (ln b / ln 10 + - (ln a / ln 10)) * ln 10 = 0)
    by (rewrite E; ring).
  field_simplify in E'; lra.
Qed.
End IdealFacts.

Ltac ideal_ops :=
  change (@sub Ideal.xreal Ideal.number_ideal) with Ideal.xsub in *;
  change (@add Ideal.xreal Ideal.number_ideal) with Ideal.xadd in *;
  change (@mul Ideal.xreal Ideal.number_ideal) with Ideal.xmul in *;
  change (@div Ideal.xreal Ideal.number_ideal) with Ideal.xdiv in *;
  change (@strict_eq Ideal.xreal Ideal.number_ideal) with Ideal.xeq in *;
  change (@isFinite Ideal.xreal Ideal.number_ideal) with Ideal.is_finite in *;
  change (@isNaN Ideal.xreal Ideal.number_ideal) with Ideal.is_nan in *;
  change (@zero Ideal.xreal Ideal.number_ideal) with (Ideal.XFin 0) in *;
  change (@one Ideal.xreal Ideal.number_ideal) with (Ideal.XFin 1) in *;
  change (@NaN Ideal.xreal Ideal.number_ideal) with Ideal.XNaN in *;
  change (@Math_pow10 Ideal.xreal Ideal.number_ideal) with Ideal.pow10 in *;
  change (@log10 Ideal.xreal Ideal.utils_ideal) with Ideal.utils_log10 in *;
  change (@logRangeFraction Ideal.xreal Ideal.utils_ideal)
    with Ideal.utils_logRangeFraction in *.

Section IdealRoundTrip.
Import Ideal.
Local Open Scope R_scope.
Variables (graph : Dygraph) (axis : nat).

Lemma ideal_linear_roundtrip (rsv rs re : R) (invert : bool) :
  logscale graph axis = false -> rs <> re ->
  dataPointToRelativeScaledValue (U := utils_ideal) graph axis
    (relativeScaledValueToDataPoint (U := utils_ideal) graph axis
       (XFin rsv) (XFin rs) (XFin re) invert)
    (XFin rs) (XFin re) invert = XFin rsv.
Proof.
  intros Hlin Hne.
  rewrite (dataPointToRelativeScaledValue_linear_eq _ _ Hlin),
          (relativeScaledValueToDataPoint_linear_eq _ _ Hlin).
  cbv zeta. ideal_ops.
  assert (Hw : xsub (XFin re) (XFin rs) = XFin (re + - rs)) by reflexivity.
  rewrite Hw, (xeq_fin_false (re + - rs) 0) by lra.
  destruct invert; cbn [xmul xsub xadd xopp xdiv];
    rewrite (is_zero_false (re + - rs)) by lra;
    cbn [xsub xadd xopp]; f_equal; field; lra.
Qed.

Lemma ideal_linear_zero_width (rsv b : R) (invert : bool) :
  logscale graph axis = false ->
  dataPointToRelativeScaledValue (U := utils_ideal) graph axis
    (relativeScaledValueToDataPoint (U := utils_ideal) graph axis
       (XFin rsv) (XFin b) (XFin b) invert)
    (XFin b) (XFin b) invert = XFin (if invert then 1 else 0).
Proof.
  intros Hlin.
  rewrite (dataPointToRelativeScaledValue_linear_eq _ _ Hlin),
          (relativeScaledValueToDataPoint_linear_eq _ _ Hlin).
  cbv zeta. ideal_ops.
  assert (Hw : xsub (XFin b) (XFin b) = XFin (b + - b)) by reflexivity.
  rewrite Hw, (xeq_fin_true (b + - b) 0) by lra.
  destruct invert; cbn [xmul xsub xadd xopp xdiv];
    rewrite (is_zero_false 1) by lra;
    cbn [xsub xadd xopp]; f_equal; field.
Qed.

Lemma ideal_logRangeFraction (r0 r1 pct : R) :
  0 < r0 -> 0 < r1 ->
  utils_logRangeFraction (XFin r0) (XFin r1) (XFin pct) =
  XFin (Rpower 10 (ln r0 / ln 10 + pct * (ln r1 / ln 10 + - (ln r0 / ln 10)))).
Proof.
  intros H0 H1. unfold utils_logRangeFraction.
  now rewrite !utils_log10_pos by assumption.
Qed.

Lemma ideal_log_roundtrip (rsv rs re : R) (invert : bool) :
  logscale graph axis = true -> 0 < rs -> 0 < re -> rs <> re ->
  dataPointToRelativeScaledValue (U := utils_ideal) graph axis
    (relativeScaledValueToDataPoint (U := utils_ideal) graph axis
       (XFin rsv) (XFin rs) (XFin re) invert)
    (XFin rs) (XFin re) invert = XFin rsv.
Proof.
  intros Hlog Hs He Hne.
  rewrite (dataPointToRelativeScaledValue_log_eq _ _ Hlog),
          (relativeScaledValueToDataPoint_log_eq _ _ Hlog).
  unfold log_quotient. cbv zeta. ideal_ops.
  pose proof (log10_injective rs re Hs He Hne) as Hw.
  pose proof ln_10_pos as H10.
  rewrite !utils_log10_pos by assumption.
  assert (Hsub : xsub (XFin (ln re / ln 10)) (XFin (ln rs / ln 10))
                 = XFin (ln re / ln 10 + - (ln rs / ln 10))) by reflexivity.
  rewrite Hsub, (xeq_fin_false _ 0) by assumption.
  set (a := ln re / ln 10) in *. set (b := ln rs / ln 10) in *.
  destruct invert; rewrite ideal_logRangeFraction by assumption;
    rewrite (utils_log10_pos _ (Rpower_10_pos _)), log10_Rpower_10;
    cbn [xmul xsub xadd xopp xdiv];
    fold a b; rewrite (is_zero_false (a + - b)) by assumption;
    cbn [is_finite xsub xadd xopp]; f_equal; field; lra.
Qed.

End IdealRoundTrip.

(** Splits a conjunction of closed facts and evaluates each of them. *)
(** Splits on the sign of every term under an absolute value. *)
Ltac split_Rabs_at t :=
  let H := fresh "Hsign" in
  destruct (Rcase_abs t) as [H|H];
  [rewrite (Rabs_left t H) in * | rewrite (Rabs_right t H) in *].

Ltac split_Rabs :=
  repeat match goal with
         | H : context [Rabs ?t] |- _ => split_Rabs_at t
         | |- context [Rabs ?t] => split_Rabs_at t
         end.

(** ** Doubles as real numbers

    The operations of [SpecFloat] round to nearest; the sections below
    prove it, so that the floating-point error of the round trips can be
    bounded. *)

Section Powers.
Import Binary64.
Local Open Scope R_scope.

Lemma bpow_pos (e : Z) : 0 < bpow e.
Proof. apply powerRZ_lt. lra. Qed.

Lemma bpow_add (a b : Z) : bpow (a + b) = bpow a * bpow b.
Proof. apply powerRZ_add. lra. Qed.

Lemma bpow_0 : bpow 0 = 1.
Proof. reflexivity. Qed.

Lemma bpow_1 : bpow 1 = 2.
Proof. unfold bpow. simpl. lra. Qed.

Lemma bpow_opp (a : Z) : bpow (- a) = / bpow a.
Proof. apply powerRZ_neg'. Qed.

Lemma bpow_succ (a : Z) : bpow (a + 1) = 2 * bpow a.
Proof. rewrite bpow_add, bpow_1. lra. Qed.

Lemma bpow_pred (a : Z) : bpow (a - 1) = bpow a / 2.
Proof.
  replace (a - 1)%Z with (a + - (1))%Z by lia.
  rewrite bpow_add, bpow_opp, bpow_1. lra.
Qed.

Lemma bpow_IZR (k : Z) : (0 <= k)%Z -> bpow k = IZR (2 ^ k).
Proof.
  intros Hk. pattern k. apply natlike_ind; [reflexivity| |exact Hk].
  intros x Hx IH. unfold Z.succ.
  rewrite bpow_succ, IH. rewrite Z.pow_add_r by lia. rewrite mult_IZR.
  change (2 ^ 1)%Z with 2%Z. lra.
Qed.

Lemma bpow_le (a b : Z) : (a <= b)%Z -> bpow a <= bpow b.
Proof.
  intros H. replace b with (a + (b - a))%Z by lia.
  rewrite bpow_add, (bpow_IZR (b - a)) by lia.
  assert (1 <= IZR (2 ^ (b - a))).
  { apply IZR_le. pose proof (Z.pow_pos_nonneg 2 (b - a)). lia. }
  pose proof (bpow_pos a). nra.
Qed.

Lemma bpow_lt (a b : Z) : (a < b)%Z -> bpow a < bpow b.
Proof.
  intros H. apply Rlt_le_trans with (bpow (a + 1)).
  - rewrite bpow_succ. pose proof (bpow_pos a). lra.
  - apply bpow_le. lia.
Qed.

Lemma Rabs_bounds (x y : R) : Rabs x <= y -> - y <= x <= y.
Proof. unfold Rabs. destruct (Rcase_abs x); lra. Qed.

End Powers.

Section Locating.
Import Binary64.
Local Open Scope R_scope.

Lemma located_bounds (r : shr_record) (x : R) :
  located r x -> IZR (shr_m r) <= x < IZR (shr_m r) + 1.
Proof.
  unfold located. destruct (shr_r r), (shr_s r); intros H; lra.
Qed.

Lemma shr_1_located (r : shr_record) (x : R) :
  (0 <= shr_m r)%Z -> located r x -> located (shr_1 r) (x / 2).
Proof.
  destruct r as [m r s]. simpl. intros Hm.
  destruct m as [|[p|p|]|p]; try lia; unfold located; simpl shr_m;
    simpl shr_r; simpl shr_s;
    try rewrite (IZR_POS_xI p); try rewrite (IZR_POS_xO p);
    destruct r, s; simpl; intros H; lra.
Qed.

Lemma iter_shr_1_located (p : positive) :
  forall r x, (0 <= shr_m r)%Z -> located r x ->
              located (SpecFloat.iter_pos shr_1 p r) (x * bpow (- Zpos p)).
Proof.
  induction p as [p IH|p IH|]; simpl SpecFloat.iter_pos; intros r x Hr Hx.
  - pose proof (shr_1_le r Hr) as H1.
    pose proof (iter_shr_1_le p _ (proj1 H1)) as H2.
    replace (x * bpow (- Zpos p~1))
      with (x / 2 * bpow (- Zpos p) * bpow (- Zpos p)).
    + apply IH; [lia|]. apply IH; [lia|]. now apply shr_1_located.
    + replace (- Zpos p~1)%Z with (- (1) + (- Zpos p + - Zpos p))%Z by lia.
      rewrite !bpow_add, (bpow_opp 1), bpow_1. lra.
  - pose proof (iter_shr_1_le p _ Hr) as H2.
    replace (x * bpow (- Zpos p~0))
      with (x * bpow (- Zpos p) * bpow (- Zpos p)).
    + apply IH; [lia|]. now apply IH.
    + replace (- Zpos p~0)%Z with (- Zpos p + - Zpos p)%Z by lia.
      rewrite !bpow_add. lra.
  - replace (x * bpow (- (1))) with (x / 2)
      by (rewrite bpow_opp, bpow_1; lra).
    now apply shr_1_located.
Qed.

(** Rounding to nearest, ties to even, of a located real. *)
Lemma round_nearest_even_located (r : shr_record) (x : R) :
  located r x ->
  Rabs (IZR (round_nearest_even (shr_m r) (loc_of_shr_record r)) - x) <= / 2.
Proof.
  destruct r as [m r s]. unfold located. simpl.
  destruct r, s; simpl; intros H.
  - rewrite plus_IZR. apply Rabs_le. lra.
  - destruct (Z.even m); [|rewrite plus_IZR]; apply Rabs_le; lra.
  - apply Rabs_le. lra.
  - subst x. apply Rabs_le. lra.
Qed.

Lemma located_of_loc (m : Z) (l : location) :
  shr_m (shr_record_of_loc m l) = m /\
  loc_of_shr_record (shr_record_of_loc m l) = l.
Proof. now destruct l as [|[| |]]. Qed.

End Locating.

(** ** Bit counts *)

Section Digits.
Import Binary64.

Lemma Zdigits2_bounds (m : Z) :
  0 < m -> 2 ^ (Zdigits2 m - 1) <= m < 2 ^ Zdigits2 m.
Proof.
  intros Hm. destruct m as [|p|p]; try lia. simpl Zdigits2. split.
  - rewrite digits2_pos_size.
    pose proof (Pos.size_le p) as H.
    apply Pos2Z.pos_le_pos in H. rewrite Pos2Z.inj_pow in H.
    change (Zpos p~0) with (2 * Zpos p) in H.
    assert (E : 2 ^ Zpos (Pos.size p) = 2 * 2 ^ (Zpos (Pos.size p) - 1)).
    { rewrite <- Z.pow_succ_r by lia. f_equal. lia. }
    lia.
  - apply pos_lt_pow_digits.
Qed.

Lemma Zdigits2_nonneg (m : Z) : 0 <= Zdigits2 m.
Proof. destruct m; simpl; lia. Qed.

Lemma Zdigits2_pos (m : Z) : 0 < m -> 1 <= Zdigits2 m.
Proof. destruct m; simpl; lia. Qed.

Lemma Zdigits2_unique (m d : Z) :
  1 <= d -> 2 ^ (d - 1) <= m < 2 ^ d -> Zdigits2 m = d.
Proof.
  intros Hd Hm.
  assert (0 < 2 ^ (d - 1)) by (apply Z.pow_pos_nonneg; lia).
  apply Z.le_antisymm; [apply Zdigits2_le; lia | apply Zdigits2_ge; lia].
Qed.

Lemma Zdigits2_mono (a b : Z) : 0 <= a <= b -> Zdigits2 a <= Zdigits2 b.
Proof.
  intros H. destruct (Z.eq_dec a 0) as [->|Ha].
  - apply Zdigits2_nonneg.
  - apply Zdigits2_le; [apply Zdigits2_nonneg|].
    pose proof (Zdigits2_bounds b ltac:(lia)). lia.
Qed.

(** The mantissa left by a shift to the format's exponent has at most 53
    bits and sits at its own canonical exponent. *)
Lemma shifted_mantissa_canonical (mx ex : Z) :
  0 <= mx ->
  let e1 := fexp prec emax (Zdigits2 mx + ex) in
  ex <= e1 ->
  let m1 := mx / 2 ^ (e1 - ex) in
  fexp prec emax (Zdigits2 m1 + e1) = e1 /\
  Zdigits2 m1 <= 53 /\
  (m1 = 0 -> e1 = -1074) /\
  (e1 <> -1074 -> e1 = Zdigits2 mx + ex - 53 /\ 0 < mx).
Proof.
  intros Hmx e1 Hn m1.
  assert (Hp : 0 < 2 ^ (e1 - ex)) by (apply Z.pow_pos_nonneg; lia).
  destruct (Z.eq_dec mx 0) as [->|Hne].
  - subst m1 e1. rewrite Z.div_0_l by lia. simpl Zdigits2 in *.
    unfold fexp, SpecFloat.emin, prec, emax in *. simpl Zdigits2. lia.
  - pose proof (Zdigits2_bounds mx ltac:(lia)) as Hd.
    set (d := Zdigits2 mx) in *.
    assert (Hd1 : 1 <= d).
    { destruct (Z.le_gt_cases 1 d) as [H|H]; [exact H|].
      pose proof (Zdigits2_nonneg mx). fold d in H0.
      assert (d = 0) by lia. rewrite H1 in Hd. simpl in Hd. lia. }
    destruct (Z.le_gt_cases d (e1 - ex)) as [Hbig|Hsmall].
    + assert (Hm1 : m1 = 0).
      { subst m1. apply Z.div_small. split; [lia|].
        apply Z.lt_le_trans with (2 ^ d); [lia|].
        apply Z.pow_le_mono_r; lia. }
      rewrite Hm1. simpl Zdigits2.
      unfold fexp, SpecFloat.emin, prec, emax in *. lia.
    + pose proof (div_pow2_bounds mx d (e1 - ex)) as Hb.
      assert (Hdm : Zdigits2 m1 = d - (e1 - ex)).
      { apply Zdigits2_unique; [lia|]. apply Hb; lia. }
      rewrite Hdm.
      assert (Hpos : 0 < m1).
      { apply Z.lt_le_trans with (2 ^ (d - (e1 - ex) - 1)).
        - apply Z.pow_pos_nonneg; lia.
        - apply Hb; lia. }
      replace (d - (e1 - ex) + e1) with (d + ex) by lia.
      fold e1. unfold fexp, SpecFloat.emin, prec, emax in *. lia.
Qed.

End Digits.

(** ** [binary_round_aux] rounds to nearest *)

Section SecondShift.
Import Binary64.

(** After rounding, the second shift of [binary_round_aux] loses nothing:
    it moves only when the mantissa was carried to [2^53]. *)
Lemma second_shift_exact (m1 m2 e1 : Z) :
  0 <= m1 -> m1 <= m2 <= m1 + 1 ->
  fexp prec emax (Zdigits2 m1 + e1) = e1 -> Zdigits2 m1 <= 53 ->
  let p := shr_fexp prec emax m2 e1 loc_Exact in
  (snd p = e1 /\ shr_m (fst p) = m2 \/
   snd p = e1 + 1 /\ m2 = 2 ^ 53 /\ shr_m (fst p) = 2 ^ 52) /\
  fexp prec emax (Zdigits2 (shr_m (fst p)) + snd p) = snd p.
Proof.
  intros Hm1 Hm2 Hc Hd1 p.
  assert (Hd12 : Zdigits2 m1 <= Zdigits2 m2) by (apply Zdigits2_mono; lia).
  assert (Hd21 : Zdigits2 m2 <= Zdigits2 m1 + 1).
  { pose proof (Zdigits2_nonneg m1) as H0.
    apply Zdigits2_le; [lia|]. split; [lia|].
    rewrite Z.pow_add_r, Z.pow_1_r by lia.
    destruct (Z.eq_dec m1 0) as [->|Hne]; [simpl; lia|].
    pose proof (Zdigits2_bounds m1 ltac:(lia)). lia. }
  set (d1 := Zdigits2 m1) in *. set (d2 := Zdigits2 m2) in *.
  assert (He1 : -1074 <= e1)
    by (unfold fexp, SpecFloat.emin, prec, emax in Hc; lia).
  assert (Hn2 : fexp prec emax (d2 + e1) - e1 = 0 \/
                (fexp prec emax (d2 + e1) - e1 = 1 /\ d2 = 54)).
  { unfold fexp, SpecFloat.emin, prec, emax in *. lia. }
  destruct (shr_fexp_exact m2 e1 loc_Exact) as [H2 H2e]; [lia| fold d2; lia|].
  fold d2 in H2, H2e. fold p in H2, H2e.
  destruct Hn2 as [Hn2 | [Hn2 Hd2]].
  - rewrite Hn2, Z.div_1_r in H2.
    assert (Hs : snd p = e1) by lia.
    split; [left; split; assumption|].
    rewrite H2, Hs. fold d2. lia.
  - rewrite Hn2 in H2.
    assert (Hm253 : m2 = 2 ^ 53).
    { assert (H0 : 0 < m2).
      { destruct (Z.eq_dec m2 0) as [E|E]; [|lia].
        unfold d2 in Hd2. rewrite E in Hd2. simpl in Hd2. lia. }
      pose proof (Zdigits2_bounds m2 H0) as Hb. fold d2 in Hb.
      rewrite Hd2 in Hb. change (2 ^ (54 - 1)) with (2 ^ 53) in Hb.
      assert (m1 < 2 ^ 53); [|lia].
      destruct (Z.eq_dec m1 0) as [E|E]; [rewrite E; reflexivity|].
      pose proof (Zdigits2_bounds m1 ltac:(lia)) as Hb1. fold d1 in Hb1.
      apply Z.lt_le_trans with (2 ^ d1); [lia|].
      apply Z.pow_le_mono_r; lia. }
    assert (Hm'' : shr_m (fst p) = 2 ^ 52) by (rewrite H2, Hm253; reflexivity).
    assert (Hs : snd p = e1 + 1) by lia.
    split; [right; repeat split; assumption|].
    rewrite Hm'', Hs. change (Zdigits2 (2 ^ 52)) with 53.
    unfold fexp, SpecFloat.emin, prec, emax. lia.
Qed.

End SecondShift.

Section RoundingToNearest.
Import Binary64.
Local Open Scope R_scope.

Lemma shr_fexp_located (mx ex : Z) (lx : location) (x : R) :
  (0 <= mx)%Z ->
  let e1 := fexp prec emax (Zdigits2 mx + ex) in
  (ex <= e1)%Z ->
  located (shr_record_of_loc mx lx) x ->
  located (fst (shr_fexp prec emax mx ex lx)) (x * bpow (ex - e1)).
Proof.
  intros Hmx e1 Hn Hx. unfold shr_fexp, shr. fold e1.
  destruct (located_of_loc mx lx) as [H0 _].
  destruct (e1 - ex)%Z as [|p|p] eqn:E; simpl fst; try lia.
  - replace (ex - e1)%Z with 0%Z by lia. rewrite bpow_0, Rmult_1_r.
    exact Hx.
  - replace (ex - e1)%Z with (- Zpos p)%Z by lia.
    apply iter_shr_1_located; [rewrite H0; lia | exact Hx].
Qed.

(** What [binary_round_aux] returns for a real, given by its integer part
    [mx] and a location, in units of [2^ex]: the nearest double, or an
    infinity from half an ulp past the largest one. *)
Lemma binary_round_aux_correct (sx : bool) (mx ex : Z) (lx : location)
    (x : R) :
  (0 <= mx)%Z -> (ex <= fexp prec emax (Zdigits2 mx + ex))%Z ->
  located (shr_record_of_loc mx lx) x ->
  let z := x * bpow ex in
  let r := binary_round_aux prec emax sx mx ex lx in
  valid r = true /\
  match r with
  | S754_nan => False
  | S754_infinity s => s = sx /\ bpow 1024 - bpow 970 <= z
  | S754_zero s => s = sx /\ z <= bpow (-1075)
  | S754_finite s m e =>
      s = sx /\ 0 < z /\
      Rabs (IZR (Zpos m) * bpow e - z) <= / 2 * bpow e /\
      (Rabs (IZR (Zpos m) * bpow e - z) <= bpow (-53) * z \/
       Rabs (IZR (Zpos m) * bpow e - z) <= bpow (-1075))
  end.
Proof.
  intros Hmx Hn Hx z r. subst r. unfold binary_round_aux.
  destruct (shifted_mantissa_canonical mx ex Hmx Hn) as (Hc & Hd1 & Hz & Hnz).
  pose proof (shr_fexp_located mx ex lx x Hmx Hn Hx) as Hloc.
  destruct (shr_fexp_exact mx ex lx Hmx) as [H1 H1e]; [lia|].
  set (e1 := fexp prec emax (Zdigits2 mx + ex)) in *.
  destruct (shr_fexp prec emax mx ex lx) as [rec1 e1'].
  simpl fst in *; simpl snd in *. subst e1'.
  rewrite <- H1 in Hc, Hd1, Hz.
  assert (Hm1 : (0 <= shr_m rec1)%Z).
  { rewrite H1. apply Z.div_pos; [lia|]. apply Z.pow_pos_nonneg; lia. }
  pose proof (round_nearest_even_located rec1 _ Hloc) as Hround.
  pose proof (round_nearest_even_bounds (shr_m rec1)
                (loc_of_shr_record rec1)) as Hb.
  set (m2 := round_nearest_even _ _) in *.
  destruct (second_shift_exact (shr_m rec1) m2 e1 Hm1 Hb Hc Hd1)
    as [Hsh Hcan].
  destruct (shr_fexp prec emax m2 e1 loc_Exact) as [rec2 e2].
  simpl fst in *; simpl snd in *.
  (* the rounded value in units of [2^e1] *)
  assert (Hz1 : z = x * bpow (ex - e1) * bpow e1).
  { unfold z. rewrite Rmult_assoc, <- bpow_add. do 2 f_equal. lia. }
  set (y := x * bpow (ex - e1)) in *.
  assert (Hy0 : 0 <= y).
  { pose proof (located_bounds _ _ Hloc) as [Hl _].
    apply Rle_trans with (IZR (shr_m rec1)); [|exact Hl].
    now apply IZR_le. }
  assert (Hval : IZR (shr_m rec2) * bpow e2 = IZR m2 * bpow e1).
  { destruct Hsh as [[-> ->] | (-> & E2 & ->)]; [reflexivity|].
    rewrite E2, bpow_succ.
    change (2 ^ 53)%Z with (2 * 2 ^ 52)%Z. rewrite mult_IZR. lra. }
  assert (He1 : (-1074 <= e1)%Z)
    by (unfold e1, fexp, SpecFloat.emin, prec, emax; lia).
  assert (Herr : Rabs (IZR m2 * bpow e1 - z) <= / 2 * bpow e1).
  { rewrite Hz1. replace (IZR m2 * bpow e1 - y * bpow e1)
      with ((IZR m2 - y) * bpow e1) by ring.
    rewrite Rabs_mult, (Rabs_pos_eq (bpow e1))
      by (apply Rlt_le, bpow_pos).
    pose proof (bpow_pos e1). nra. }
  destruct (shr_m rec2) as [|m''|m''] eqn:Em.
  - (* zero *)
    split; [reflexivity|]. split; [reflexivity|].
    assert (Hm2 : m2 = 0%Z).
    { destruct Hsh as [[_ E] | (_ & E2 & E)]; [congruence|].
      discriminate E. }
    assert (Hm10 : shr_m rec1 = 0%Z) by lia.
    rewrite (Hz Hm10) in *. rewrite Hm2 in Herr.
    apply Rabs_bounds in Herr.
    replace (bpow (-1075)) with (/ 2 * bpow (-1074)); [lra|].
    change (-1075)%Z with (-1074 - 1)%Z. rewrite bpow_pred. lra.
  - destruct (Z.leb_spec e2 (emax - prec)) as [Hle|Hgt].
    + (* finite *)
      split.
      { unfold valid, valid_binary, bounded, canonical_mantissa.
        apply andb_true_intro. split.
        - apply Z.eqb_eq. exact Hcan.
        - now apply Z.leb_le. }
      split; [reflexivity|].
      split.
      { assert (H2 : (1 <= m2)%Z)
          by (destruct Hsh as [[_ E]|(_ & E & _)];
              [lia | rewrite E; discriminate]).
        apply IZR_le in H2. apply Rabs_bounds in Hround.
        rewrite Hz1. apply Rmult_lt_0_compat; [lra | apply bpow_pos]. }
      rewrite Hval. split.
      { apply Rle_trans with (1 := Herr).
        assert (bpow e1 <= bpow e2)
          by (apply bpow_le; destruct Hsh as [[-> _]|(-> & _)]; lia).
        lra. }
      destruct (Z.eq_dec e1 (-1074)) as [E|E].
      * right. apply Rle_trans with (1 := Herr). rewrite E.
        change (-1075)%Z with (-1074 - 1)%Z. rewrite bpow_pred. lra.
      * left. destruct (Hnz E) as [He1d Hpos].
        pose proof (Zdigits2_bounds mx Hpos) as Hdig.
        apply Rle_trans with (1 := Herr).
        assert (Hzl : bpow (e1 + 52) <= z).
        { unfold z.
          replace (e1 + 52)%Z with ((Zdigits2 mx - 1) + ex)%Z by lia.
          rewrite bpow_add.
          apply Rmult_le_compat_r; [apply Rlt_le, bpow_pos|].
          apply Rle_trans with (IZR mx).
          - rewrite bpow_IZR by (pose proof (Zdigits2_pos mx Hpos); lia).
            apply IZR_le. lia.
          - destruct (located_of_loc mx lx) as [E0 _].
            pose proof (located_bounds _ _ Hx) as [Hl _].
            now rewrite E0 in Hl. }
        replace (bpow e1) with (bpow (-52) * bpow (e1 + 52))
          by (rewrite <- bpow_add; f_equal; lia).
        replace (bpow (-53)) with (/ 2 * bpow (-52))
          by (change (-53)%Z with (-52 - 1)%Z; rewrite bpow_pred; lra).
        pose proof (bpow_pos (-52)). nra.
    + (* overflow *)
      split; [reflexivity|]. split; [reflexivity|].
      unfold emax, prec in Hgt.
      destruct Hsh as [[E2 E] | (E2 & Em2 & E)].
      * subst e2.
        assert (E1 : e1 <> (-1074)%Z) by lia.
        destruct (Hnz E1) as [He1d Hpos].
        pose proof (Zdigits2_bounds mx Hpos) as Hdig.
        apply Rle_trans with (bpow 1024);
          [pose proof (bpow_pos 970); lra|].
        apply Rle_trans with (bpow (Zdigits2 mx - 1 + ex));
          [apply bpow_le; lia|].
        unfold z. rewrite bpow_add.
        apply Rmult_le_compat_r; [apply Rlt_le, bpow_pos|].
        apply Rle_trans with (IZR mx).
        -- rewrite bpow_IZR by (pose proof (Zdigits2_pos mx Hpos); lia).
           apply IZR_le. lia.
        -- destruct (located_of_loc mx lx) as [E0 _].
           pose proof (located_bounds _ _ Hx) as [Hl _].
           now rewrite E0 in Hl.
      * rewrite Em2 in Herr. apply Rabs_bounds in Herr.
        assert (H971 : bpow 971 <= bpow e1) by (apply bpow_le; lia).
        rewrite <- bpow_IZR in Herr by lia.
        replace (bpow 1024) with (bpow 53 * bpow 971)
          by (rewrite <- bpow_add; reflexivity).
        replace (bpow 970) with (/ 2 * bpow 971)
          by (change 970%Z with (971 - 1)%Z; rewrite bpow_pred; lra).
        assert (H53 : 1 <= bpow 53)
          by (change 1 with (bpow 0); apply bpow_le; lia).
        nra.
  - (* a negative mantissa cannot come out *)
    exfalso. destruct Hsh as [[_ E] | (_ & _ & E)]; [lia|discriminate E].
Qed.

End RoundingToNearest.

(** ** Roundings as a relation between a real and a double *)

Section Signs.
Import Binary64.
Local Open Scope R_scope.

Lemma signed_involutive (s : bool) (v : R) : signed s (signed s v) = v.
Proof. destruct s; simpl; lra. Qed.

Lemma Rabs_signed (s : bool) (v : R) : Rabs (signed s v) = Rabs v.
Proof. destruct s; simpl; [apply Rabs_Ropp|reflexivity]. Qed.

Lemma signed_minus (s : bool) (a b : R) :
  signed s a - signed s b = signed s (a - b).
Proof. destruct s; simpl; lra. Qed.

Lemma signed_mult_l (s : bool) (a b : R) : signed s a * b = signed s (a * b).
Proof. destruct s; simpl; lra. Qed.

Lemma IZR_cond_Zopp (s : bool) (m : Z) :
  IZR (cond_Zopp s m) = signed s (IZR m).
Proof. destruct s; simpl; [apply opp_IZR|reflexivity]. Qed.

Lemma real_value_finite (s : bool) (m : positive) (e : Z) :
  real_value (S754_finite s m e) = signed s (IZR (Zpos m) * bpow e).
Proof. unfold real_value. now rewrite IZR_cond_Zopp, signed_mult_l. Qed.

End Signs.

Section RoundedOperations.
Import Binary64.
Local Open Scope R_scope.

Lemma binary_round_aux_rounding (sx : bool) (mx ex : Z) (lx : location)
    (x : R) :
  (0 <= mx)%Z -> (ex <= fexp prec emax (Zdigits2 mx + ex))%Z ->
  located (shr_record_of_loc mx lx) x ->
  rounding_of (signed sx (x * bpow ex)) (binary_round_aux prec emax sx mx ex lx).
Proof.
  intros Hmx Hn Hx.
  destruct (binary_round_aux_correct sx mx ex lx x Hmx Hn Hx) as [Hv Hr].
  split; [exact Hv|].
  destruct (binary_round_aux prec emax sx mx ex lx) as [s|s| |s m e].
  - destruct Hr as [-> Hr]. rewrite Rabs_signed, signed_involutive.
    assert (0 <= x * bpow ex).
    { apply Rmult_le_pos; [|apply Rlt_le, bpow_pos].
      pose proof (located_bounds _ _ Hx) as [Hl _].
      destruct (located_of_loc mx lx) as [E0 _]. rewrite E0 in Hl.
      apply IZR_le in Hmx. lra. }
    split; [assumption|]. now rewrite Rabs_pos_eq.
  - destruct Hr as [-> Hr]. now rewrite signed_involutive.
  - exact Hr.
  - destruct Hr as (-> & Hpos & Hhalf & Hr). rewrite signed_involutive.
    split; [exact Hpos|].
    rewrite real_value_finite, signed_minus, !Rabs_signed.
    split; [exact Hhalf|].
    now rewrite (Rabs_pos_eq (x * bpow ex)) by lra.
Qed.

Lemma shl_align_value (m : positive) (e e' : Z) :
  let p := shl_align m e e' in
  IZR (Zpos (fst p)) * bpow (snd p) = IZR (Zpos m) * bpow e /\
  (snd p <= e')%Z /\ (snd p <= e)%Z /\
  (Zdigits2 (Zpos (fst p)) + snd p = Zdigits2 (Zpos m) + e)%Z /\
  ((e' <= e)%Z -> snd p = e').
Proof.
  unfold shl_align. destruct (e' - e)%Z as [|k|k] eqn:E; simpl fst; simpl snd.
  - repeat split; lia.
  - repeat split; lia.
  - assert (He : e = (e' + Zpos k)%Z) by lia.
    rewrite iter_xO_value.
    assert (Hd : (Zdigits2 (Zpos m * 2 ^ Zpos k)
                  = Zdigits2 (Zpos m) + Zpos k)%Z).
    { pose proof (Zdigits2_bounds (Zpos m) ltac:(lia)) as Hb.
      pose proof (Zdigits2_pos (Zpos m) ltac:(lia)) as Hp.
      assert (0 < 2 ^ Zpos k)%Z by (apply Z.pow_pos_nonneg; lia).
      apply Zdigits2_unique; [lia|].
      replace (Zdigits2 (Zpos m) + Zpos k - 1)%Z
        with (Zdigits2 (Zpos m) - 1 + Zpos k)%Z by lia.
      rewrite !Z.pow_add_r by lia. nia. }
    repeat split; try lia.
    + rewrite mult_IZR, <- bpow_IZR, Rmult_assoc, <- bpow_add by lia.
      do 2 f_equal. lia.
Qed.

Lemma binary_round_rounding (sx : bool) (mx : positive) (ex : Z) :
  rounding_of (signed sx (IZR (Zpos mx) * bpow ex))
              (binary_round prec emax sx mx ex).
Proof.
  unfold binary_round.
  pose proof (shl_align_value mx ex
                (fexp prec emax (Zpos (digits2_pos mx) + ex))) as H.
  destruct (shl_align _ _ _) as [mz ez]. simpl fst in H; simpl snd in H.
  destruct H as (Hv & Hle & _ & Hd & _). rewrite <- Hv.
  apply binary_round_aux_rounding; [lia| |reflexivity].
  change (Zpos (digits2_pos mx)) with (Zdigits2 (Zpos mx)) in Hle.
  now rewrite Hd.
Qed.

Lemma rounding_of_zero (z : R) (s : bool) : z = 0 -> rounding_of z (S754_zero s).
Proof.
  intros ->. split; [reflexivity|]. rewrite Rabs_R0. split.
  - destruct s; simpl; lra.
  - apply Rlt_le, bpow_pos.
Qed.

Lemma binary_normalize_rounding (m e : Z) (szero : bool) :
  rounding_of (IZR m * bpow e) (binary_normalize prec emax m e szero).
Proof.
  destruct m as [|p|p]; unfold binary_normalize.
  - apply rounding_of_zero. lra.
  - apply (binary_round_rounding false).
  - change (Zneg p) with (- Zpos p)%Z. rewrite opp_IZR.
    replace (- IZR (Zpos p) * bpow e) with (signed true (IZR (Zpos p) * bpow e))
      by (simpl; lra).
    apply binary_round_rounding.
Qed.

(** A valid finite double is the rounding of its own value. *)
Lemma rounding_of_self (x : double) :
  valid x = true -> is_finite x = true -> rounding_of (real_value x) x.
Proof.
  intros Hv Hf. split; [exact Hv|].
  destruct x as [s|s| |s m e]; try discriminate.
  - simpl. rewrite Rabs_R0. split; [destruct s; simpl; lra|].
    apply Rlt_le, bpow_pos.
  - split.
    + rewrite real_value_finite, signed_involutive.
      apply Rmult_lt_0_compat; [now apply IZR_lt | apply bpow_pos].
    + rewrite Rminus_diag, Rabs_R0. split.
      * pose proof (bpow_pos e). lra.
      * left. apply Rmult_le_pos; [apply Rlt_le, bpow_pos | apply Rabs_pos].
Qed.

End RoundedOperations.

(** ** Addition, subtraction and multiplication round the exact result *)

Section Arithmetic.
Import Binary64.
Local Open Scope R_scope.

Lemma valid_finite_canonical (s : bool) (m : positive) (e : Z) :
  valid (S754_finite s m e) = true ->
  fexp prec emax (Zdigits2 (Zpos m) + e) = e /\ (e <= 971)%Z.
Proof.
  unfold valid, valid_binary, bounded, canonical_mantissa.
  intros H. apply andb_prop in H. destruct H as [Hc He].
  apply Z.eqb_eq in Hc. apply Z.leb_le in He. split; [exact Hc|exact He].
Qed.

Lemma aligned_sum_value (sx sy : bool) (mx my : positive) (ex ey : Z)
    (op : Z -> Z -> Z) (rop : R -> R -> R) :
  (forall a b, IZR (op a b) = rop (IZR a) (IZR b)) ->
  (forall a b c, rop a b * c = rop (a * c) (b * c)) ->
  let ez := Z.min ex ey in
  IZR (op (cond_Zopp sx (Zpos (fst (shl_align mx ex ez))))
          (cond_Zopp sy (Zpos (fst (shl_align my ey ez))))) * bpow ez
  = rop (real_value (S754_finite sx mx ex)) (real_value (S754_finite sy my ey)).
Proof.
  intros Hop Hdist ez.
  pose proof (shl_align_value mx ex ez) as (Hx & _ & _ & _ & Hsx).
  pose proof (shl_align_value my ey ez) as (Hy & _ & _ & _ & Hsy).
  rewrite Hsx in Hx by (unfold ez; lia).
  rewrite Hsy in Hy by (unfold ez; lia).
  rewrite Hop, Hdist, !IZR_cond_Zopp, !signed_mult_l, Hx, Hy.
  now rewrite !real_value_finite.
Qed.

Lemma SF64add_rounding (x y : double) :
  valid x = true -> valid y = true ->
  is_finite x = true -> is_finite y = true ->
  rounding_of (real_value x + real_value y) (SF64add x y).
Proof.
  intros Hvx Hvy Hfx Hfy.
  destruct x as [sx|sx| |sx mx ex]; try discriminate;
    destruct y as [sy|sy| |sy my ey]; try discriminate.
  - destruct sx, sy; apply rounding_of_zero; simpl; lra.
  - replace (real_value (S754_zero sx) + real_value (S754_finite sy my ey))
      with (real_value (S754_finite sy my ey)) by (simpl; lra).
    now apply rounding_of_self.
  - replace (real_value (S754_finite sx mx ex) + real_value (S754_zero sy))
      with (real_value (S754_finite sx mx ex)) by (simpl; lra).
    now apply rounding_of_self.
  - unfold SF64add, SFadd.
    rewrite <- (aligned_sum_value sx sy mx my ex ey Z.add Rplus plus_IZR)
      by (intros; lra).
    apply binary_normalize_rounding.
Qed.

Lemma SF64sub_rounding (x y : double) :
  valid x = true -> valid y = true ->
  is_finite x = true -> is_finite y = true ->
  rounding_of (real_value x - real_value y) (SF64sub x y).
Proof.
  intros Hvx Hvy Hfx Hfy.
  destruct x as [sx|sx| |sx mx ex]; try discriminate;
    destruct y as [sy|sy| |sy my ey]; try discriminate.
  - destruct sx, sy; apply rounding_of_zero; simpl; lra.
  - replace (real_value (S754_zero sx) - real_value (S754_finite sy my ey))
      with (real_value (S754_finite (negb sy) my ey))
      by (rewrite !real_value_finite; destruct sy; simpl; lra).
    now apply rounding_of_self.
  - replace (real_value (S754_finite sx mx ex) - real_value (S754_zero sy))
      with (real_value (S754_finite sx mx ex)) by (simpl; lra).
    now apply rounding_of_self.
  - unfold SF64sub, SFsub.
    rewrite <- (aligned_sum_value sx sy mx my ex ey Z.sub Rminus minus_IZR)
      by (intros; lra).
    apply binary_normalize_rounding.
Qed.

Lemma signed_xorb (sx sy : bool) (a b : R) :
  signed sx a * signed sy b = signed (xorb sx sy) (a * b).
Proof. destruct sx, sy; simpl; lra. Qed.

Lemma SF64mul_rounding (x y : double) :
  valid x = true -> valid y = true ->
  is_finite x = true -> is_finite y = true ->
  rounding_of (real_value x * real_value y) (SF64mul x y).
Proof.
  intros Hvx Hvy Hfx Hfy.
  destruct x as [sx|sx| |sx mx ex]; try discriminate;
    destruct y as [sy|sy| |sy my ey]; try discriminate;
    try (apply rounding_of_zero; simpl; lra).
  unfold SF64mul, SFmul.
  rewrite !real_value_finite, signed_xorb.
  replace (IZR (Zpos mx) * bpow ex * (IZR (Zpos my) * bpow ey))
    with (IZR (Zpos (mx * my)) * bpow (ex + ey))
    by (rewrite Pos2Z.inj_mul, mult_IZR, bpow_add; ring).
  apply binary_round_aux_rounding; [lia| |reflexivity].
  destruct (valid_finite_canonical _ _ _ Hvx) as [Hcx _].
  destruct (valid_finite_canonical _ _ _ Hvy) as [Hcy _].
  pose proof (Zdigits2_bounds (Zpos mx) ltac:(lia)) as Hbx.
  pose proof (Zdigits2_bounds (Zpos my) ltac:(lia)) as Hby.
  pose proof (Zdigits2_pos (Zpos mx) ltac:(lia)) as Hpx.
  pose proof (Zdigits2_pos (Zpos my) ltac:(lia)) as Hpy.
  assert (Hd : (Zdigits2 (Zpos mx) + Zdigits2 (Zpos my) - 1
                <= Zdigits2 (Zpos (mx * my)))%Z).
  { apply Zdigits2_ge; [|lia].
    replace (Zdigits2 (Zpos mx) + Zdigits2 (Zpos my) - 1 - 1)%Z
      with ((Zdigits2 (Zpos mx) - 1) + (Zdigits2 (Zpos my) - 1))%Z by lia.
    rewrite Z.pow_add_r, Pos2Z.inj_mul by lia.
    apply Z.mul_le_mono_nonneg; try lia; apply Z.pow_nonneg; lia. }
  unfold fexp, SpecFloat.emin, prec, emax in *. lia.
Qed.

Lemma new_location_located (q d r : Z) :
  (0 < d)%Z -> (0 <= r < d)%Z ->
  located (shr_record_of_loc q (new_location d r)) (IZR q + IZR r / IZR d).
Proof.
  intros Hd Hr.
  assert (HdR : 0 < IZR d) by now apply IZR_lt.
  assert (Hdiv : forall a b : Z, (a < b)%Z -> IZR a < IZR b)
    by (intros; now apply IZR_lt).
  assert (Hhalf : forall c, IZR r / IZR d < c <-> IZR r < c * IZR d).
  { intros c. split; intros H.
    - apply Rmult_lt_compat_r with (r := IZR d) in H; [|exact HdR].
      unfold Rdiv in H. rewrite Rmult_assoc, Rinv_l, Rmult_1_r in H; lra.
    - apply Rmult_lt_reg_r with (IZR d); [exact HdR|].
      unfold Rdiv. rewrite Rmult_assoc, Rinv_l, Rmult_1_r; lra. }
  assert (Hhalf' : forall c, c < IZR r / IZR d <-> c * IZR d < IZR r).
  { intros c. split; intros H.
    - apply Rmult_lt_compat_r with (r := IZR d) in H; [|exact HdR].
      unfold Rdiv in H. rewrite Rmult_assoc, Rinv_l, Rmult_1_r in H; lra.
    - apply Rmult_lt_reg_r with (IZR d); [exact HdR|].
      unfold Rdiv. rewrite Rmult_assoc, Rinv_l, Rmult_1_r; lra. }
  assert (H2r : IZR (2 * r) = 2 * IZR r) by (rewrite mult_IZR; lra).
  assert (Hexact : r = 0%Z ->
            located (shr_record_of_loc q loc_Exact) (IZR q + IZR r / IZR d)).
  { intros ->. unfold located, Rdiv. simpl. lra. }
  unfold new_location.
  destruct (Z.even d) eqn:Heven;
    [unfold new_location_even | unfold new_location_odd];
    destruct (Z.eqb_spec r 0) as [Hr0|Hr0]; try (now apply Hexact).
  - assert (Hrpos : 0 < IZR r) by (apply IZR_lt; lia).
    destruct (Z.compare_spec (2 * r) d) as [E|E|E]; unfold located; simpl.
    + apply (f_equal IZR) in E. rewrite H2r in E.
      assert (IZR r / IZR d = / 2); [|lra].
      rewrite <- E. field. lra.
    + apply IZR_lt in E. rewrite H2r in E.
      assert (IZR r / IZR d < / 2) by (apply Hhalf; lra).
      assert (0 < IZR r / IZR d) by (apply Hhalf'; lra). lra.
    + apply IZR_lt in E. rewrite H2r in E.
      assert (/ 2 < IZR r / IZR d) by (apply Hhalf'; lra).
      assert (IZR r / IZR d < 1).
      { apply Hhalf. destruct Hr as [_ Hr]. apply IZR_lt in Hr. lra. }
      lra.
  - assert (Hrpos : 0 < IZR r) by (apply IZR_lt; lia).
    assert (Hne : (2 * r <> d)%Z).
    { intros E. rewrite <- E, Z.even_mul in Heven. discriminate. }
    assert (Hlow : (2 * r < d)%Z ->
              IZR q < IZR q + IZR r / IZR d < IZR q + / 2).
    { intros E'. apply IZR_lt in E'. rewrite H2r in E'.
      assert (IZR r / IZR d < / 2) by (apply Hhalf; lra).
      assert (0 < IZR r / IZR d) by (apply Hhalf'; lra). lra. }
    destruct (Z.compare_spec (2 * r + 1) d) as [E|E|E]; unfold located;
      simpl.
    + apply Hlow. lia.
    + apply Hlow. lia.
    + assert (E' : (d < 2 * r)%Z) by lia.
      apply IZR_lt in E'. rewrite H2r in E'.
      assert (/ 2 < IZR r / IZR d) by (apply Hhalf'; lra).
      assert (IZR r / IZR d < 1).
      { apply Hhalf. destruct Hr as [_ Hr]. apply IZR_lt in Hr. lra. }
      lra.
Qed.

End Arithmetic.

(** ** Division rounds the exact quotient *)

Section Division.
Import Binary64.
Local Open Scope R_scope.

Lemma SFdiv_core_binary_located (mx my : positive) (ex ey : Z) :
  let c := SFdiv_core_binary prec emax (Zpos mx) ex (Zpos my) ey in
  let q := fst (fst c) in
  let e' := snd (fst c) in
  (0 <= q)%Z /\ (e' <= fexp prec emax (Zdigits2 q + e'))%Z /\
  exists x : R,
    located (shr_record_of_loc q (snd c)) x /\
    x * bpow e' = IZR (Zpos mx) * bpow ex / (IZR (Zpos my) * bpow ey).
Proof.
  unfold SFdiv_core_binary.
  set (d1 := Zdigits2 (Zpos mx)). set (d2 := Zdigits2 (Zpos my)).
  set (e' := Z.min (fexp prec emax (d1 + ex - (d2 + ey))) (ex - ey)).
  set (s := (ex - ey - e')%Z).
  assert (Hs : (0 <= s)%Z) by (unfold s, e'; lia).
  set (m' := match s with
             | 0%Z => Zpos mx
             | Zpos _ => Z.shiftl (Zpos mx) s
             | Zneg _ => 0%Z
             end).
  assert (Hm' : m' = (Zpos mx * 2 ^ s)%Z).
  { unfold m'. destruct s as [|p|p]; try lia.
    now rewrite Z.shiftl_mul_pow2 by lia. }
  pose proof (Z_div_mod m' (Zpos my) ltac:(lia)) as Hdm.
  destruct (Z.div_eucl m' (Zpos my)) as [q r]. destruct Hdm as [Hq Hr].
  simpl fst; simpl snd.
  assert (Hps : (0 < 2 ^ s)%Z) by (apply Z.pow_pos_nonneg; lia).
  assert (Hq0 : (0 <= q)%Z) by nia.
  split; [exact Hq0|]. split.
  - (* the quotient has the digits the format needs *)
    pose proof (Zdigits2_bounds (Zpos mx) ltac:(lia)) as Hb1.
    pose proof (Zdigits2_bounds (Zpos my) ltac:(lia)) as Hb2.
    pose proof (Zdigits2_pos (Zpos mx) ltac:(lia)) as Hp1.
    pose proof (Zdigits2_pos (Zpos my) ltac:(lia)) as Hp2.
    fold d1 in Hb1, Hp1. fold d2 in Hb2, Hp2.
    assert (Hdq : (d1 + s - d2 <= Zdigits2 q)%Z).
    { destruct (Z.le_gt_cases (d1 + s - d2) 0) as [Hk|Hk].
      - pose proof (Zdigits2_nonneg q). lia.
      - apply Zdigits2_ge; [|lia].
        assert (Hsplit : (2 ^ (d1 - 1) * 2 ^ s
                          = 2 ^ (d1 + s - d2 - 1) * 2 ^ d2)%Z).
        { rewrite <- !Z.pow_add_r by lia. f_equal. lia. }
        assert (Hk0 : (0 < 2 ^ (d1 + s - d2 - 1))%Z)
          by (apply Z.pow_pos_nonneg; lia).
        destruct (Z.le_gt_cases (2 ^ (d1 + s - d2 - 1)) q) as [H|H];
          [exact H|].
        assert ((q + 1) * Zpos my <= 2 ^ (d1 + s - d2 - 1) * 2 ^ d2)%Z
          by nia.
        nia. }
    unfold e' at 2. unfold e' at 1.
    unfold fexp, SpecFloat.emin, prec, emax in *. lia.
  - exists (IZR q + IZR r / IZR (Zpos my)). split.
    + apply new_location_located; lia.
    + assert (Hmy : 0 < IZR (Zpos my)) by (apply IZR_lt; lia).
      pose proof (bpow_pos ey) as Hey. pose proof (bpow_pos e') as He'.
      assert (HR : IZR (Zpos mx) * bpow s
                   = IZR (Zpos my) * IZR q + IZR r).
      { rewrite bpow_IZR, <- mult_IZR, <- Hm', Hq, plus_IZR, mult_IZR by lia.
        reflexivity. }
      assert (Hex : bpow ex = bpow s * bpow e' * bpow ey).
      { rewrite <- !bpow_add. f_equal. unfold s. lia. }
      rewrite Hex.
      replace (IZR (Zpos mx) * (bpow s * bpow e' * bpow ey))
        with ((IZR (Zpos mx) * bpow s) * bpow e' * bpow ey) by ring.
      rewrite HR. field. lra.
Qed.

Lemma SF64div_rounding (x y : double) :
  valid x = true -> is_finite x = true ->
  is_finite y = true -> real_value y <> 0 ->
  rounding_of (real_value x / real_value y) (SF64div x y).
Proof.
  intros Hvx Hfx Hfy Hy0.
  destruct y as [sy|sy| |sy my ey]; try discriminate;
    [exfalso; apply Hy0; reflexivity|].
  destruct x as [sx|sx| |sx mx ex]; try discriminate.
  - apply rounding_of_zero. unfold real_value at 1. unfold Rdiv. ring.
  - unfold SF64div, SFdiv.
    pose proof (SFdiv_core_binary_located mx my ex ey) as H.
    destruct (SFdiv_core_binary prec emax (Zpos mx) ex (Zpos my) ey)
      as [[q e'] l].
    simpl fst in H; simpl snd in H.
    destruct H as (Hq & Hn & z & Hloc & Hz).
    assert (Hmy : 0 < IZR (Zpos my)) by (apply IZR_lt; lia).
    pose proof (bpow_pos ey) as Hey.
    replace (real_value (S754_finite sx mx ex)
             / real_value (S754_finite sy my ey))
      with (signed (xorb sx sy) (z * bpow e')).
    + now apply binary_round_aux_rounding.
    + rewrite Hz, !real_value_finite.
      destruct sx, sy; simpl; field; nra.
Qed.

End Division.

(** What the bound on a rounding says once the result is finite. *)
Section ErrorBounds.
Import Binary64.
Local Open Scope R_scope.

Lemma rounding_of_not_nan (z : R) (r : double) :
  rounding_of z r -> is_nan r = false.
Proof. intros [_ H]. now destruct r. Qed.

Lemma rounding_of_error (z : R) (r : double) :
  rounding_of z r -> is_finite r = true ->
  Rabs (real_value r - z) <= bpow (-53) * Rabs z + bpow (-1075).
Proof.
  intros [_ H] Hf.
  pose proof (bpow_pos (-53)). pose proof (bpow_pos (-1075)).
  pose proof (Rabs_pos z).
  destruct r as [s|s| |s m e]; try discriminate.
  - unfold real_value. rewrite Rminus_0_l, Rabs_Ropp. nra.
  - destruct H as (_ & _ & [H|H]); nra.
Qed.

Lemma rounding_of_valid (z : R) (r : double) : rounding_of z r -> valid r = true.
Proof. now intros [H _]. Qed.

End ErrorBounds.

(** ** Chains of rounding errors, on the reals *)

Section RealChains.
Import Binary64.
Local Open Scope R_scope.

Lemma bpow_m53 : bpow (-53) = / 9007199254740992.
Proof.
  change (-53)%Z with (- (53))%Z. rewrite bpow_opp, bpow_IZR by lia.
  reflexivity.
Qed.

Lemma bpow_m50 : bpow (-50) = 8 * bpow (-53).
Proof.
  change (-50)%Z with (-53 + 1 + 1 + 1)%Z. rewrite !bpow_succ. ring.
Qed.

(** An error bound relative to [w] once both sides are divided by it. *)
Lemma scaled_error (u eta alpha beta w : R) :
  w <> 0 -> 0 <= u ->
  Rabs (alpha - beta) <= u * Rabs beta + eta ->
  Rabs (alpha / w - beta / w) <= u * Rabs (beta / w) + eta / Rabs w.
Proof.
  intros Hw Hu H.
  assert (HW : 0 < Rabs w) by now apply Rabs_pos_lt.
  replace (alpha / w - beta / w) with ((alpha - beta) / w) by (field; exact Hw).
  unfold Rdiv. rewrite !Rabs_mult, Rabs_inv.
  assert (Hi : 0 < / Rabs w) by now apply Rinv_0_lt_compat.
  replace (u * (Rabs beta * / Rabs w) + eta * / Rabs w)
    with ((u * Rabs beta + eta) * / Rabs w) by ring.
  apply Rmult_le_compat_r; lra.
Qed.

Lemma forward_chain (eta eta' a x p v y q : R) :
  0 <= eta -> 0 <= eta' ->
  Rabs (p - x) <= bpow (-53) * Rabs x + eta' ->
  Rabs (v - (a + p)) <= bpow (-53) * Rabs (a + p) + eta' ->
  Rabs (y - (v - a)) <= bpow (-53) * Rabs (v - a) + eta' ->
  Rabs (q - y) <= bpow (-53) * Rabs y + eta ->
  Rabs (q - x) <= bpow (-50) * (Rabs x + Rabs a) + 4 * eta' + eta.
Proof.
  rewrite bpow_m50, bpow_m53. intros He He' H1 H2 H3 H4.
  apply Rabs_bounds in H1, H2, H3, H4. apply Rabs_le.
  split_Rabs; lra.
Qed.

Lemma backward_chain (eta eta' a b x p v y q r : R) :
  0 <= eta -> 0 <= eta' ->
  Rabs (1 - (b - a)) <= bpow (-53) * Rabs (b - a) + eta' ->
  Rabs (p - x) <= bpow (-53) * Rabs x + eta' ->
  Rabs (v - (b - p)) <= bpow (-53) * Rabs (b - p) + eta' ->
  Rabs (y - (v - a)) <= bpow (-53) * Rabs (v - a) + eta' ->
  Rabs (q - y) <= bpow (-53) * Rabs y + eta ->
  Rabs (r - (1 - q)) <= bpow (-53) * Rabs (1 - q) + eta ->
  Rabs (r - x)
  <= bpow (-50) * (1 + Rabs x + Rabs a + Rabs b) + 8 * eta' + 4 * eta.
Proof.
  rewrite bpow_m50, bpow_m53. intros He He' H0 H1 H2 H3 H4 H5.
  apply Rabs_bounds in H0, H1, H2, H3, H4, H5. apply Rabs_le.
  split_Rabs; lra.
Qed.

End RealChains.

(** ** The linear round trip on doubles *)

Section FiniteResults.
Import Binary64.

Lemma add_finite_inv (x y : double) :
  is_finite (SF64add x y) = true -> is_finite x = true /\ is_finite y = true.
Proof.
  destruct x as [s|[|]| |s m e], y as [t|[|]| |t n f];
    try discriminate; now split.
Qed.

Lemma sub_finite_inv (x y : double) :
  is_finite (SF64sub x y) = true -> is_finite x = true /\ is_finite y = true.
Proof.
  destruct x as [s|[|]| |s m e], y as [t|[|]| |t n f];
    try discriminate; now split.
Qed.

Lemma mul_finite_inv (x y : double) :
  is_finite (SF64mul x y) = true -> is_finite x = true /\ is_finite y = true.
Proof.
  destruct x as [s|[|]| |s m e], y as [t|[|]| |t n f];
    try discriminate; now split.
Qed.

Lemma div_finite_inv (x y : double) :
  is_finite (SF64div x y) = true -> is_finite x = true.
Proof.
  destruct x as [s|[|]| |s m e], y as [t|[|]| |t n f];
    try discriminate; reflexivity.
Qed.

Lemma finite_nonzero_value (w : double) :
  is_finite w = true -> SFeqb w pos_zero = false -> real_value w <> 0%R.
Proof.
  destruct w as [s|s| |s m e]; try discriminate.
  intros _ _. rewrite real_value_finite.
  assert (0 < IZR (Zpos m) * bpow e)%R
    by (apply Rmult_lt_0_compat; [now apply IZR_lt | apply bpow_pos]).
  destruct s; simpl; lra.
Qed.

End FiniteResults.

Section LinearRoundTrip.
Import Binary64.
Local Open Scope R_scope.

Variables rsv rs re : double.
Hypotheses (Hvx : valid rsv = true) (Hva : valid rs = true)
           (Hvb : valid re = true).

Let w := SF64sub re rs.
Hypothesis Hw : SFeqb w pos_zero = false.

Lemma Rabs_div_eq (a b : R) : b <> 0 -> Rabs (a / b) = Rabs a / Rabs b.
Proof. intros Hb. unfold Rdiv. now rewrite Rabs_mult, Rabs_inv. Qed.

Lemma eta_scaled (v : R) : v <> 0 -> 0 <= bpow (-1075) / Rabs v.
Proof.
  intros Hv. apply Rmult_le_pos; [apply Rlt_le, bpow_pos|].
  apply Rlt_le, Rinv_0_lt_compat. now apply Rabs_pos_lt.
Qed.

Lemma linear_roundtrip_forward :
  let r := SF64div (SF64sub (SF64add rs (SF64mul rsv w)) rs) w in
  is_finite r = true ->
  Rabs (real_value r - real_value rsv)
  <= roundtrip_tolerance (real_value rsv) (real_value rs) (real_value re)
       (real_value w).
Proof.
  intros r Hr. subst r.
  pose proof (div_finite_inv _ _ Hr) as Hy.
  destruct (sub_finite_inv _ _ Hy) as [Hv Hfa].
  destruct (add_finite_inv _ _ Hv) as [_ Hp].
  destruct (mul_finite_inv _ _ Hp) as [Hfx Hfw].
  destruct (sub_finite_inv _ _ Hfw) as [Hfb _].
  pose proof (finite_nonzero_value w Hfw Hw) as Hw0.
  pose proof (SF64sub_rounding re rs Hvb Hva Hfb Hfa) as R0.
  pose proof (rounding_of_valid _ _ R0) as Hvw. fold w in R0, Hvw.
  pose proof (SF64mul_rounding rsv w Hvx Hvw Hfx Hfw) as R1.
  pose proof (rounding_of_valid _ _ R1) as Hvp.
  pose proof (SF64add_rounding rs _ Hva Hvp Hfa Hp) as R2.
  pose proof (rounding_of_valid _ _ R2) as Hvv.
  pose proof (SF64sub_rounding _ rs Hvv Hva Hv Hfa) as R3.
  pose proof (rounding_of_valid _ _ R3) as Hvy.
  pose proof (SF64div_rounding _ w Hvy Hy Hfw Hw0) as R4.
  apply rounding_of_error in R1, R2, R3, R4; try assumption.
  set (p := real_value (SF64mul rsv w)) in *.
  set (v := real_value (SF64add rs (SF64mul rsv w))) in *.
  set (y := real_value (SF64sub (SF64add rs (SF64mul rsv w)) rs)) in *.
  set (q := real_value (SF64div (SF64sub (SF64add rs (SF64mul rsv w)) rs) w))
    in *.
  set (x := real_value rsv) in *. set (a := real_value rs) in *.
  set (b := real_value re) in *. set (ww := real_value w) in *.
  assert (Hu : 0 <= bpow (-53)) by apply Rlt_le, bpow_pos.
  apply (scaled_error _ _ _ _ ww Hw0 Hu) in R1, R2, R3.
  replace (x * ww / ww) with x in R1 by (field; exact Hw0).
  replace ((a + p) / ww) with (a / ww + p / ww) in R2 by (field; exact Hw0).
  replace ((v - a) / ww) with (v / ww - a / ww) in R3 by (field; exact Hw0).
  pose proof (forward_chain (bpow (-1075)) (bpow (-1075) / Rabs ww)
                (a / ww) x (p / ww) (v / ww) (y / ww) q
                (Rlt_le _ _ (bpow_pos _)) (eta_scaled ww Hw0)
                R1 R2 R3 R4) as H.
  apply Rle_trans with (1 := H). unfold roundtrip_tolerance.
  rewrite (Rabs_div_eq a ww Hw0).
  assert (HW : 0 < Rabs ww) by now apply Rabs_pos_lt.
  assert (Hi : 0 < / Rabs ww) by now apply Rinv_0_lt_compat.
  pose proof (Rabs_pos x). pose proof (Rabs_pos a). pose proof (Rabs_pos b).
  pose proof (bpow_pos (-50)) as H50. pose proof (bpow_pos (-1075)) as He.
  replace (bpow (-1072)) with (8 * bpow (-1075))
    by (change (-1072)%Z with (-1075 + 1 + 1 + 1)%Z; rewrite !bpow_succ; ring).
  unfold Rdiv.
  assert (0 <= Rabs b * / Rabs ww) by (apply Rmult_le_pos; lra).
  assert (0 <= bpow (-1075) * / Rabs ww) by (apply Rmult_le_pos; lra).
  assert (0 <= Rabs a * / Rabs ww) by (apply Rmult_le_pos; lra).
  assert (0 <= bpow (-50) * (Rabs b * / Rabs ww)) by (apply Rmult_le_pos; lra).
  assert (0 <= bpow (-50) * Rabs x) by (apply Rmult_le_pos; lra).
  lra.
Qed.

Lemma linear_roundtrip_backward :
  let r := SF64sub double_one
             (SF64div (SF64sub (SF64sub re (SF64mul rsv w)) rs) w) in
  is_finite r = true ->
  Rabs (real_value r - real_value rsv)
  <= roundtrip_tolerance (real_value rsv) (real_value rs) (real_value re)
       (real_value w).
Proof.
  intros r Hr. subst r.
  destruct (sub_finite_inv _ _ Hr) as [_ Hq].
  pose proof (div_finite_inv _ _ Hq) as Hy.
  destruct (sub_finite_inv _ _ Hy) as [Hv Hfa].
  destruct (sub_finite_inv _ _ Hv) as [Hfb Hp].
  destruct (mul_finite_inv _ _ Hp) as [Hfx Hfw].
  pose proof (finite_nonzero_value w Hfw Hw) as Hw0.
  pose proof (SF64sub_rounding re rs Hvb Hva Hfb Hfa) as R0.
  pose proof (rounding_of_valid _ _ R0) as Hvw. fold w in R0, Hvw.
  pose proof (SF64mul_rounding rsv w Hvx Hvw Hfx Hfw) as R1.
  pose proof (rounding_of_valid _ _ R1) as Hvp.
  pose proof (SF64sub_rounding re _ Hvb Hvp Hfb Hp) as R2.
  pose proof (rounding_of_valid _ _ R2) as Hvv.
  pose proof (SF64sub_rounding _ rs Hvv Hva Hv Hfa) as R3.
  pose proof (rounding_of_valid _ _ R3) as Hvy.
  pose proof (SF64div_rounding _ w Hvy Hy Hfw Hw0) as R4.
  pose proof (rounding_of_valid _ _ R4) as Hvq.
  pose proof (SF64sub_rounding double_one _ eq_refl Hvq eq_refl Hq) as R5.
  apply rounding_of_error in R0, R1, R2, R3, R4, R5; try assumption.
  replace (real_value double_one) with 1 in R5
    by (unfold double_one, real_value, cond_Zopp;
        change (-52)%Z with (- (52))%Z;
        rewrite bpow_opp, bpow_IZR by lia;
        change (2 ^ 52)%Z with 4503599627370496%Z; field).
  set (p := real_value (SF64mul rsv w)) in *.
  set (v := real_value (SF64sub re (SF64mul rsv w))) in *.
  set (y := real_value (SF64sub (SF64sub re (SF64mul rsv w)) rs)) in *.
  set (q := real_value (SF64div (SF64sub (SF64sub re (SF64mul rsv w)) rs) w))
    in *.
  set (r := real_value (SF64sub double_one _)) in *.
  set (x := real_value rsv) in *. set (a := real_value rs) in *.
  set (b := real_value re) in *. set (ww := real_value w) in *.
  assert (Hu : 0 <= bpow (-53)) by apply Rlt_le, bpow_pos.
  apply (scaled_error _ _ _ _ ww Hw0 Hu) in R0, R1, R2, R3.
  replace (ww / ww) with 1 in R0 by (field; exact Hw0).
  replace ((b - a) / ww) with (b / ww - a / ww) in R0 by (field; exact Hw0).
  replace (x * ww / ww) with x in R1 by (field; exact Hw0).
  replace ((b - p) / ww) with (b / ww - p / ww) in R2 by (field; exact Hw0).
  replace ((v - a) / ww) with (v / ww - a / ww) in R3 by (field; exact Hw0).
  pose proof (backward_chain (bpow (-1075)) (bpow (-1075) / Rabs ww)
                (a / ww) (b / ww) x (p / ww) (v / ww) (y / ww) q r
                (Rlt_le _ _ (bpow_pos _)) (eta_scaled ww Hw0)
                R0 R1 R2 R3 R4 R5) as H.
  apply Rle_trans with (1 := H). unfold roundtrip_tolerance.
  rewrite (Rabs_div_eq a ww Hw0), (Rabs_div_eq b ww Hw0).
  replace (bpow (-1072)) with (8 * bpow (-1075))
    by (change (-1072)%Z with (-1075 + 1 + 1 + 1)%Z; rewrite !bpow_succ; ring).
  pose proof (bpow_pos (-1075)) as He.
  unfold Rdiv. lra.
Qed.

End LinearRoundTrip.

(** ** Where a rounding stays in range *)

Section RangeOfRoundings.
Import Binary64.
Local Open Scope R_scope.

Lemma overflow_threshold_pos : 0 < bpow 1024 - bpow 970.
Proof. pose proof (bpow_lt 970 1024 ltac:(lia)). pose proof (bpow_pos 970). lra. Qed.

(** A real strictly between half the smallest double and the overflow
    threshold rounds to a positive finite double. *)
Lemma rounding_of_in_range (z : R) (r : double) :
  rounding_of z r -> bpow (-1075) < z -> z < bpow 1024 - bpow 970 ->
  is_finite r = true /\ SFltb pos_zero r = true.
Proof.
  intros [_ H] Hlo Hhi. pose proof (bpow_pos (-1075)) as He.
  pose proof overflow_threshold_pos as Ho.
  destruct r as [s|s| |s m e]; try contradiction.
  - destruct H as [_ H]. rewrite Rabs_pos_eq in H; lra.
  - destruct s; simpl in H; lra.
  - destruct H as [H _]. destruct s; simpl in H; [lra|]. split; reflexivity.
Qed.

Lemma valid_mantissa_bound (s : bool) (m : positive) (e : Z) :
  valid (S754_finite s m e) = true ->
  (Zpos m <= 2 ^ 53 - 1)%Z /\ (-1074 <= e <= 971)%Z.
Proof.
  intros Hv. destruct (valid_finite_canonical _ _ _ Hv) as [Hc He].
  pose proof (Zdigits2_bounds (Zpos m) ltac:(lia)) as Hb.
  assert (Hd : (Zdigits2 (Zpos m) <= 53)%Z)
    by (unfold fexp, SpecFloat.emin, prec, emax in Hc; lia).
  assert (Hp : (2 ^ Zdigits2 (Zpos m) <= 2 ^ 53)%Z)
    by (apply Z.pow_le_mono_r; lia).
  unfold fexp, SpecFloat.emin, prec, emax in Hc. lia.
Qed.

Lemma rounding_of_overflow (z : R) (r : double) :
  rounding_of z r -> bpow 1024 - bpow 970 < z -> r = S754_infinity false.
Proof.
  intros [Hv H] Hz. pose proof overflow_threshold_pos as Ho.
  pose proof (bpow_pos (-1075)) as He.
  destruct r as [s|s| |s m e]; try contradiction.
  - destruct H as [_ H]. rewrite Rabs_pos_eq in H by lra.
    pose proof (bpow_lt (-1075) 970 ltac:(lia)).
    pose proof (bpow_lt 970 1024 ltac:(lia)).
    replace (bpow 1024) with (2 * bpow 1023) in *
      by (change 1024%Z with (1023 + 1)%Z; now rewrite bpow_succ).
    pose proof (bpow_lt 970 1023 ltac:(lia)). lra.
  - destruct s; simpl in H; [lra|reflexivity].
  - exfalso. destruct H as (Hs & Hhalf & _).
    destruct s; simpl in Hs; [lra|].
    destruct (valid_mantissa_bound _ _ _ Hv) as [Hm He'].
    rewrite real_value_finite in Hhalf. simpl in Hhalf.
    apply Rabs_bounds in Hhalf.
    apply IZR_le in Hm. rewrite minus_IZR, <- bpow_IZR in Hm by lia.
    assert (H971 : bpow e <= bpow 971) by (apply bpow_le; lia).
    pose proof (bpow_pos e) as Hpe.
    replace (bpow 1024) with (bpow 53 * bpow 971) in Hz
      by (rewrite <- bpow_add; reflexivity).
    replace (bpow 970) with (/ 2 * bpow 971) in Hz
      by (change 970%Z with (971 - 1)%Z; rewrite bpow_pred; lra).
    assert (H53 : 1 <= bpow 53)
      by (change 1 with (bpow 0); apply bpow_le; lia).
    assert (IZR (Zpos m) * bpow e <= (bpow 53 - 1) * bpow 971).
    { apply Rmult_le_compat; try lra.
      apply IZR_le. lia. }
    nra.
Qed.

Lemma rounding_of_underflow (z : R) (r : double) :
  rounding_of z r -> 0 < z -> z < bpow (-1075) -> r = S754_zero false.
Proof.
  intros [Hv H] Hz0 Hz. pose proof overflow_threshold_pos as Ho.
  destruct r as [s|s| |s m e]; try contradiction.
  - destruct H as [H _]. destruct s; simpl in H; [lra|reflexivity].
  - exfalso. pose proof (bpow_lt (-1075) 970 ltac:(lia)).
    replace (bpow 1024) with (2 * bpow 1023) in *
      by (change 1024%Z with (1023 + 1)%Z; now rewrite bpow_succ).
    pose proof (bpow_lt 970 1023 ltac:(lia)).
    destruct s; simpl in H; lra.
  - exfalso. destruct H as (Hs & Hhalf & _).
    destruct s; simpl in Hs; [lra|].
    destruct (valid_mantissa_bound _ _ _ Hv) as [Hm He'].
    rewrite real_value_finite in Hhalf. simpl in Hhalf.
    apply Rabs_bounds in Hhalf.
    assert (H1 : 1 <= IZR (Zpos m)) by (apply IZR_le; lia).
    assert (Hle : bpow (-1074) <= bpow e) by (apply bpow_le; lia).
    replace (bpow (-1075)) with (/ 2 * bpow (-1074)) in Hz
      by (change (-1075)%Z with (-1074 - 1)%Z; rewrite bpow_pred; lra).
    pose proof (bpow_pos e). nra.
Qed.

End RangeOfRoundings.

Section PowerIsMonotone.
Import Binary64.

(** The running product of [exp2_bits] never decreases... *)
Lemma exp2_bits_ge_acc (n : nat) :
  forall i s acc f, 2 ^ P <= s -> 0 <= acc -> acc <= exp2_bits n i s acc f.
Proof.
  assert (HP : 0 < 2 ^ P) by (apply Z.pow_pos_nonneg; unfold P; lia).
  induction n as [|n IH]; intros i s acc f Hs Hacc; cbn [exp2_bits]; [lia|].
  rewrite Z.shiftl_mul_pow2 by (unfold P; lia).
  pose proof (Z.sqrt_spec (s * 2 ^ P) ltac:(nia)) as [Hlo Hhi].
  set (s' := Z.sqrt (s * 2 ^ P)) in *.
  assert (Hs' : 2 ^ P <= s').
  { destruct (Z.le_gt_cases (2 ^ P) s') as [H|H]; [exact H|].
    assert (H0 : 0 <= s') by apply Z.sqrt_nonneg.
    assert (H1 : Z.succ s' * Z.succ s' <= 2 ^ P * 2 ^ P) by nia.
    nia. }
  destruct (Z.testbit f (K - i)).
  - rewrite Z.shiftr_div_pow2 by (unfold P; lia).
    assert (Hstep : acc <= acc * s' / 2 ^ P)
      by (apply Z.div_le_lower_bound; nia).
    apply Z.le_trans with (1 := Hstep). apply IH; lia.
  - apply IH; lia.
Qed.

(** ... and stays below what the current root would make of it. *)
Lemma exp2_bits_le_root (n : nat) :
  forall i s acc f, 2 ^ P <= s -> 0 <= acc ->
                    exp2_bits n i s acc f * 2 ^ P <= acc * s.
Proof.
  assert (HP : 0 < 2 ^ P) by (apply Z.pow_pos_nonneg; unfold P; lia).
  induction n as [|n IH]; intros i s acc f Hs Hacc; cbn [exp2_bits]; [nia|].
  rewrite Z.shiftl_mul_pow2 by (unfold P; lia).
  pose proof (Z.sqrt_spec (s * 2 ^ P) ltac:(nia)) as [Hlo Hhi].
  set (s' := Z.sqrt (s * 2 ^ P)) in *.
  assert (Hs' : 2 ^ P <= s').
  { destruct (Z.le_gt_cases (2 ^ P) s') as [H|H]; [exact H|].
    assert (H0 : 0 <= s') by apply Z.sqrt_nonneg.
    assert (H1 : Z.succ s' * Z.succ s' <= 2 ^ P * 2 ^ P) by nia.
    nia. }
  assert (Hs's : s' <= s) by nia.
  destruct (Z.testbit f (K - i)).
  - rewrite Z.shiftr_div_pow2 by (unfold P; lia).
    pose proof (Z.mul_div_le (acc * s') (2 ^ P) HP) as Hd.
    assert (H0 : 0 <= acc * s' / 2 ^ P) by (apply Z.div_pos; nia).
    apply Z.le_trans with (1 := IH _ _ _ _ Hs' H0).
    assert (2 ^ P * (acc * s' / 2 ^ P * s') <= 2 ^ P * (acc * s)); [|nia].
    apply Z.le_trans with (acc * s' * s'); [nia|].
    apply Z.le_trans with (acc * (s * 2 ^ P)); [nia|]. nia.
  - apply Z.le_trans with (1 := IH _ _ _ _ Hs' Hacc). nia.
Qed.

Lemma mod_pow2_split (f n : Z) :
  1 <= n ->
  f mod 2 ^ n
  = f mod 2 ^ (n - 1) + (if Z.testbit f (n - 1) then 2 ^ (n - 1) else 0).
Proof.
  intros Hn.
  assert (Hp : 0 < 2 ^ (n - 1)) by (apply Z.pow_pos_nonneg; lia).
  assert (E : 2 ^ n = 2 ^ (n - 1) * 2).
  { replace n with (n - 1 + 1) at 1 by lia.
    now rewrite Z.pow_add_r, Z.pow_1_r by lia. }
  rewrite E.
  rewrite Z.rem_mul_r by lia. f_equal.
  destruct (Z.testbit f (n - 1)) eqn:Hb.
  - apply Z.testbit_true in Hb; [|lia]. rewrite Hb. lia.
  - apply Z.testbit_false in Hb; [|lia]. rewrite Hb. lia.
Qed.

Lemma exp2_bits_mono (n : nat) :
  forall i s acc f1 f2,
    2 ^ P <= s -> 0 <= acc -> Z.of_nat n = K - i + 1 ->
    f1 mod 2 ^ Z.of_nat n <= f2 mod 2 ^ Z.of_nat n ->
    exp2_bits n i s acc f1 <= exp2_bits n i s acc f2.
Proof.
  assert (HP : 0 < 2 ^ P) by (apply Z.pow_pos_nonneg; unfold P; lia).
  induction n as [|n IH]; intros i s acc f1 f2 Hs Hacc Hi Hf;
    cbn [exp2_bits]; [lia|].
  rewrite Z.shiftl_mul_pow2 by (unfold P; lia).
  pose proof (Z.sqrt_spec (s * 2 ^ P) ltac:(nia)) as [Hlo Hhi].
  set (s' := Z.sqrt (s * 2 ^ P)) in *.
  assert (Hs' : 2 ^ P <= s').
  { destruct (Z.le_gt_cases (2 ^ P) s') as [H|H]; [exact H|].
    assert (H0 : 0 <= s') by apply Z.sqrt_nonneg.
    assert (H1 : Z.succ s' * Z.succ s' <= 2 ^ P * 2 ^ P) by nia.
    nia. }
  rewrite (mod_pow2_split f1), (mod_pow2_split f2) in Hf by lia.
  replace (Z.of_nat (S n) - 1) with (Z.of_nat n) in Hf by lia.
  replace (K - i) with (Z.of_nat n) by lia.
  assert (Hp : 0 < 2 ^ Z.of_nat n) by (apply Z.pow_pos_nonneg; lia).
  pose proof (Z.mod_pos_bound f1 (2 ^ Z.of_nat n) Hp) as Hm1.
  pose proof (Z.mod_pos_bound f2 (2 ^ Z.of_nat n) Hp) as Hm2.
  rewrite Z.shiftr_div_pow2 by (unfold P; lia).
  assert (H0 : 0 <= acc * s' / 2 ^ P) by (apply Z.div_pos; nia).
  destruct (Z.testbit f1 (Z.of_nat n)), (Z.testbit f2 (Z.of_nat n)).
  - apply IH; try lia.
  - lia.
  - apply Z.le_trans with (acc * s' / 2 ^ P).
    + apply Z.div_le_lower_bound; [lia|].
      rewrite Z.mul_comm. now apply exp2_bits_le_root.
    + now apply exp2_bits_ge_acc.
  - apply IH; try lia.
Qed.

Lemma exp2_fixed_mono (f1 f2 : Z) :
  0 <= f1 <= f2 -> f2 < 2 ^ K -> exp2_fixed f1 <= exp2_fixed f2.
Proof.
  intros Hf Hk. unfold exp2_fixed. apply exp2_bits_mono.
  - apply Z.pow_le_mono_r; unfold P; lia.
  - apply Z.pow_nonneg. lia.
  - reflexivity.
  - change (Z.of_nat Kbits) with K. rewrite !Z.mod_small; lia.
Qed.

End PowerIsMonotone.

(** ** The thresholds of [Math.pow(10, x)] *)

Section PowerThresholds.
Import Binary64.

Lemma pow10_exact_bounds (t : Z) :
  (bpow (t / 2 ^ K) <= pow10_exact t <= bpow (t / 2 ^ K + 1))%R.
Proof.
  unfold pow10_exact.
  pose proof (exp2_fixed_bounds (t mod 2 ^ K)) as [Hlo Hhi].
  apply IZR_le in Hlo, Hhi.
  rewrite <- !bpow_IZR in * by (unfold P; lia).
  pose proof (bpow_pos (t / 2 ^ K - P)) as Hp.
  replace (bpow (t / 2 ^ K)) with (bpow P * bpow (t / 2 ^ K - P))%R
    by (rewrite <- bpow_add; f_equal; lia).
  replace (bpow (t / 2 ^ K + 1)) with (bpow (P + 1) * bpow (t / 2 ^ K - P))%R
    by (rewrite <- bpow_add; f_equal; lia).
  split; apply Rmult_le_compat_r; lra.
Qed.

Lemma pow10_exact_mono (t1 t2 : Z) :
  t1 <= t2 -> (pow10_exact t1 <= pow10_exact t2)%R.
Proof.
  intros Ht.
  assert (HK : 0 < 2 ^ K) by (apply Z.pow_pos_nonneg; unfold K; lia).
  assert (Hn : t1 / 2 ^ K <= t2 / 2 ^ K) by (apply Z.div_le_mono; lia).
  destruct (Z.eq_dec (t1 / 2 ^ K) (t2 / 2 ^ K)) as [E|E].
  - unfold pow10_exact. rewrite E.
    apply Rmult_le_compat_r; [apply Rlt_le, bpow_pos|].
    apply IZR_le, exp2_fixed_mono.
    + pose proof (Z.mod_pos_bound t1 (2 ^ K) HK).
      pose proof (Z.div_mod t1 (2 ^ K) ltac:(lia)) as H1.
      pose proof (Z.div_mod t2 (2 ^ K) ltac:(lia)) as H2.
      rewrite E in H1. lia.
    + apply Z.mod_pos_bound. lia.
  - apply Rle_trans with (bpow (t1 / 2 ^ K + 1)); [apply pow10_exact_bounds|].
    apply Rle_trans with (bpow (t2 / 2 ^ K)); [|apply pow10_exact_bounds].
    apply bpow_le. lia.
Qed.

(** Away from the early exits, [pow10] is the rounding of [pow10_exact]. *)
Lemma pow10_rounding (s : bool) (m : positive) (e : Z) :
  Zpos (digits2_pos m) + e <= 12 ->
  rounding_of
    (pow10_exact (cond_Zopp s (Z.shiftl (Zpos m * LOG2_10) e)))
    (pow10 (S754_finite s m e)).
Proof.
  intros Hd. unfold pow10.
  apply Z.ltb_ge in Hd. rewrite Hd.
  rewrite Z.shiftr_div_pow2 by (unfold K; lia).
  apply binary_normalize_rounding.
Qed.

Lemma pow10_exact_pos (t : Z) : (0 < pow10_exact t)%R.
Proof.
  apply Rlt_le_trans with (2 := proj1 (pow10_exact_bounds t)). apply bpow_pos.
Qed.

(** The four scaled exponents next to the thresholds. *)
Lemma below_overflow :
  (pow10_exact (Z.shiftl (5422874305198590 * LOG2_10) (-44))
   < bpow 1024 - bpow 970)%R.
Proof.
  unfold pow10_exact.
  set (t := Z.shiftl (5422874305198590 * LOG2_10) (-44)).
  assert (Hn : t / 2 ^ K = 1023) by (vm_compute; reflexivity).
  assert (HM : exp2_fixed (t mod 2 ^ K) < 2 ^ 201 - 2 ^ 147)
    by (vm_compute; reflexivity).
  rewrite Hn. apply IZR_lt in HM.
  rewrite minus_IZR, <- !bpow_IZR in HM by lia.
  replace (bpow 1024) with (bpow 201 * bpow (1023 - P))%R
    by (rewrite <- bpow_add; reflexivity).
  replace (bpow 970) with (bpow 147 * bpow (1023 - P))%R
    by (rewrite <- bpow_add; reflexivity).
  pose proof (bpow_pos (1023 - P)). nra.
Qed.

Lemma above_overflow :
  (bpow 1024 - bpow 970
   < pow10_exact (Z.shiftl (5422874305198591 * LOG2_10) (-44)))%R.
Proof.
  set (t := Z.shiftl (5422874305198591 * LOG2_10) (-44)).
  assert (Hn : t / 2 ^ K = 1024) by (vm_compute; reflexivity).
  pose proof (proj1 (pow10_exact_bounds t)) as H. rewrite Hn in H.
  pose proof (bpow_pos 970). lra.
Qed.

Lemma above_underflow :
  (bpow (-1075)
   < pow10_exact (- Z.shiftl (5692958865320786 * LOG2_10) (-44)))%R.
Proof.
  unfold pow10_exact.
  set (t := - Z.shiftl (5692958865320786 * LOG2_10) (-44)).
  assert (Hn : t / 2 ^ K = -1075) by (vm_compute; reflexivity).
  assert (HM : 2 ^ 200 < exp2_fixed (t mod 2 ^ K))
    by (vm_compute; reflexivity).
  rewrite Hn. apply IZR_lt in HM. rewrite <- bpow_IZR in HM by lia.
  replace (bpow (-1075)) with (bpow 200 * bpow (-1075 - P))%R
    by (rewrite <- bpow_add; reflexivity).
  pose proof (bpow_pos (-1075 - P)). nra.
Qed.

Lemma below_underflow :
  (pow10_exact (- Z.shiftl (5692958865320787 * LOG2_10) (-44))
   < bpow (-1075))%R.
Proof.
  unfold pow10_exact.
  set (t := - Z.shiftl (5692958865320787 * LOG2_10) (-44)).
  assert (Hn : t / 2 ^ K = -1076) by (vm_compute; reflexivity).
  assert (HM : exp2_fixed (t mod 2 ^ K) < 2 ^ 201)
    by (vm_compute; reflexivity).
  rewrite Hn. apply IZR_lt in HM. rewrite <- bpow_IZR in HM by lia.
  replace (bpow (-1075)) with (bpow 201 * bpow (-1076 - P))%R
    by (rewrite <- bpow_add; reflexivity).
  pose proof (bpow_pos (-1076 - P)). nra.
Qed.

(** Comparing positive doubles compares exponents, then mantissas. *)
Lemma finite_le_magnitude (m m0 : positive) (e e0 : Z) :
  valid (S754_finite false m e) = true -> 2 ^ 52 <= Zpos m0 ->
  SFleb (S754_finite false m e) (S754_finite false m0 e0) = true ->
  e <= e0 /\ Zpos m <= Zpos m0 * 2 ^ (e0 - e).
Proof.
  intros Hv Hm0. destruct (valid_mantissa_bound _ _ _ Hv) as [Hm He].
  unfold SFleb, SFcompare.
  destruct (Z.compare_spec e e0) as [E|E|E]; intros H.
  - subst e0. rewrite Z.sub_diag, Z.mul_1_r. split; [lia|].
    change (Pos.compare_cont Eq m m0) with (Pos.compare m m0) in H.
    destruct (Pos.compare_spec m m0); try discriminate; lia.
  - split; [lia|].
    assert (2 ^ 1 <= 2 ^ (e0 - e)) by (apply Z.pow_le_mono_r; lia).
    change (2 ^ 53) with (2 ^ 52 * 2 ^ 1) in Hm. nia.
  - discriminate.
Qed.

Lemma finite_lt_magnitude (m m0 : positive) (e e0 : Z) :
  valid (S754_finite false m e) = true ->
  Zpos m0 <= 2 ^ 53 - 1 -> -1074 <= e0 ->
  SFltb (S754_finite false m0 e0) (S754_finite false m e) = true ->
  e0 <= e /\ Zpos m0 + 1 <= Zpos m * 2 ^ (e - e0).
Proof.
  intros Hv Hm0 He0. destruct (valid_finite_canonical _ _ _ Hv) as [Hc He].
  unfold SFltb, SFcompare.
  destruct (Z.compare_spec e0 e) as [E|E|E]; intros H.
  - subst e0. rewrite Z.sub_diag, Z.mul_1_r. split; [lia|].
    change (Pos.compare_cont Eq m0 m) with (Pos.compare m0 m) in H.
    destruct (Pos.compare_spec m0 m); try discriminate; lia.
  - split; [lia|].
    pose proof (Zdigits2_bounds (Zpos m) ltac:(lia)) as Hb.
    assert (Hd : Zdigits2 (Zpos m) = 53)
      by (unfold fexp, SpecFloat.emin, prec, emax in Hc; lia).
    rewrite Hd in Hb. change (2 ^ (53 - 1)) with (2 ^ 52) in Hb.
    assert (2 ^ 1 <= 2 ^ (e - e0)) by (apply Z.pow_le_mono_r; lia).
    change (2 ^ 53) with (2 ^ 52 * 2 ^ 1) in Hm0. nia.
  - discriminate.
Qed.

Lemma SFcompare_negatives (m m0 : positive) (e e0 : Z) :
  SFcompare (S754_finite true m0 e0) (S754_finite true m e)
  = SFcompare (S754_finite false m e) (S754_finite false m0 e0).
Proof.
  unfold SFcompare. rewrite (Z.compare_antisym e0 e).
  destruct (e0 ?= e); simpl; try reflexivity.
  change (Pos.compare_cont Eq m0 m) with (Pos.compare m0 m).
  change (Pos.compare_cont Eq m m0) with (Pos.compare m m0).
  now rewrite (Pos.compare_antisym m0 m).
Qed.

(** The scaled exponent follows the magnitude of the argument. *)
Lemma scaled_exponent_le (m m0 : positive) (e : Z) :
  e <= -44 -> Zpos m <= Zpos m0 * 2 ^ (-44 - e) ->
  0 <= Z.shiftl (Zpos m * LOG2_10) e
    <= Z.shiftl (Zpos m0 * LOG2_10) (-44).
Proof.
  intros He Hm. rewrite !shiftl_neg_div by lia.
  assert (HL : 0 < LOG2_10) by reflexivity.
  assert (Hp : 0 < 2 ^ (-44 - e)) by (apply Z.pow_pos_nonneg; lia).
  assert (Hs : 2 ^ (- e) = 2 ^ (- -44) * 2 ^ (-44 - e))
    by (rewrite <- Z.pow_add_r by lia; f_equal; lia).
  split.
  - apply Z.div_pos; [nia|]. apply Z.pow_pos_nonneg; lia.
  - rewrite Hs, <- (Z.div_mul_cancel_r (Zpos m0 * LOG2_10) (2 ^ (- -44))
                      (2 ^ (-44 - e))) by lia.
    apply Z.div_le_mono; [|nia].
    apply Z.mul_pos_pos; [reflexivity|lia].
Qed.

Lemma scaled_exponent_ge (m m0 : positive) (e : Z) :
  -44 <= e -> Zpos m0 + 1 <= Zpos m * 2 ^ (e - -44) ->
  Z.shiftl ((Zpos m0 + 1) * LOG2_10) (-44)
  <= Z.shiftl (Zpos m * LOG2_10) e.
Proof.
  intros He Hm.
  assert (HL : 0 < LOG2_10) by reflexivity.
  assert (Hp : 0 < 2 ^ (e - -44)) by (apply Z.pow_pos_nonneg; lia).
  rewrite (shiftl_neg_div _ (-44)) by lia.
  assert (E : Z.shiftl (Zpos m * LOG2_10) e
              = Zpos m * 2 ^ (e - -44) * LOG2_10 / 2 ^ (- -44)).
  { destruct (Z.le_gt_cases e 0) as [H0|H0].
    - rewrite shiftl_neg_div by lia.
      rewrite <- (Z.div_mul_cancel_r (Zpos m * LOG2_10) (2 ^ (- e))
                    (2 ^ (e - -44))) by
        (try lia; apply Z.pow_nonzero; lia).
      f_equal; [ring|].
      rewrite <- Z.pow_add_r by lia. f_equal. lia.
    - rewrite Z.shiftl_mul_pow2 by lia.
      replace (e - -44) with (e + - -44) by lia.
      rewrite Z.pow_add_r by lia.
      replace (Zpos m * (2 ^ e * 2 ^ (- -44)) * LOG2_10)
        with (Zpos m * LOG2_10 * 2 ^ e * 2 ^ (- -44)) by ring.
      now rewrite Z.div_mul by (apply Z.pow_nonzero; lia). }
  rewrite E. apply Z.div_le_mono; [reflexivity|nia].
Qed.

End PowerThresholds.

(** ** [Math.pow(10, x)] is 0, a positive double or +Infinity *)

Section PowerTrichotomy.
Import Binary64.

Lemma valid_digits (s : bool) (m : positive) (e : Z) :
  valid (S754_finite s m e) = true -> Zpos (digits2_pos m) <= 53.
Proof.
  intros Hv. destruct (valid_finite_canonical _ _ _ Hv) as [Hc _].
  change (Zdigits2 (Zpos m)) with (Zpos (digits2_pos m)) in Hc.
  unfold fexp, SpecFloat.emin, prec, emax in Hc. lia.
Qed.

Lemma overflow_threshold_large : (2 < bpow 1024 - bpow 970)%R.
Proof.
  replace (bpow 1024) with (2 * bpow 1023)%R
    by (change 1024 with (1023 + 1); now rewrite bpow_succ).
  pose proof (bpow_lt 970 1023 ltac:(lia)).
  pose proof (bpow_lt 1 1023 ltac:(lia)). rewrite bpow_1 in *. lra.
Qed.

Lemma underflow_threshold_small : (bpow (-1075) < 1)%R.
Proof. change 1%R with (bpow 0). apply bpow_lt. lia. Qed.

(** Between the two thresholds the power is a positive finite double. *)
Lemma pow10_within_thresholds (sv : double) :
  valid sv = true ->
  SFleb pow10_underflow_threshold sv = true ->
  SFleb sv pow10_overflow_threshold = true ->
  is_finite (pow10 sv) = true /\ SFltb pos_zero (pow10 sv) = true.
Proof.
  intros Hv Hlo Hhi.
  destruct sv as [s|[|]| |[|] m e]; try discriminate.
  - split; reflexivity.
  - (* negative *)
    unfold SFleb, pow10_underflow_threshold in Hlo.
    rewrite SFcompare_negatives in Hlo.
    destruct (finite_le_magnitude m 5692958865320786 e (-44) Hv
                ltac:(discriminate) Hlo) as [He Hm].
    pose proof (scaled_exponent_le _ _ _ He Hm) as Ht.
    pose proof (valid_digits _ _ _ Hv) as Hd.
    assert (Hde : Zpos (digits2_pos m) + e <= 12) by (clear - He Hd; lia).
    pose proof (pow10_rounding true m e Hde) as Hr.
    apply (rounding_of_in_range _ _ Hr).
    + apply Rlt_le_trans with (1 := above_underflow).
      apply pow10_exact_mono. unfold cond_Zopp. lia.
    + apply Rle_lt_trans with (pow10_exact 0).
      * apply pow10_exact_mono. unfold cond_Zopp. lia.
      * apply Rle_lt_trans with (1 := proj2 (pow10_exact_bounds 0)).
        change (0 / 2 ^ K + 1) with 1. rewrite bpow_1.
        apply overflow_threshold_large.
  - (* positive *)
    unfold pow10_overflow_threshold in Hhi.
    destruct (finite_le_magnitude m 5422874305198590 e (-44) Hv
                ltac:(discriminate) Hhi) as [He Hm].
    pose proof (scaled_exponent_le _ _ _ He Hm) as Ht.
    pose proof (valid_digits _ _ _ Hv) as Hd.
    assert (Hde : Zpos (digits2_pos m) + e <= 12) by (clear - He Hd; lia).
    pose proof (pow10_rounding false m e Hde) as Hr.
    apply (rounding_of_in_range _ _ Hr).
    + apply Rlt_le_trans with (pow10_exact 0).
      * apply Rlt_le_trans with (2 := proj1 (pow10_exact_bounds 0)).
        change (0 / 2 ^ K) with 0. rewrite bpow_0.
        apply underflow_threshold_small.
      * apply pow10_exact_mono. unfold cond_Zopp. lia.
    + apply Rle_lt_trans with (2 := below_overflow).
      apply pow10_exact_mono. unfold cond_Zopp. lia.
Qed.

(** Past the upper threshold it is +Infinity. *)
Lemma pow10_above_threshold (sv : double) :
  valid sv = true ->
  SFltb pow10_overflow_threshold sv = true ->
  pow10 sv = S754_infinity false.
Proof.
  intros Hv Hhi.
  destruct sv as [s|[|]| |[|] m e]; try discriminate; [reflexivity|].
  unfold pow10_overflow_threshold in Hhi.
  destruct (finite_lt_magnitude m 5422874305198590 e (-44) Hv
              ltac:(discriminate) ltac:(lia) Hhi) as [He Hm].
  destruct (Z.ltb_spec 12 (Zpos (digits2_pos m) + e)) as [Hbig|Hsmall].
  - unfold pow10. apply Z.ltb_lt in Hbig. now rewrite Hbig.
  - pose proof (pow10_rounding false m e Hsmall) as Hr.
    apply (rounding_of_overflow _ _ Hr).
    apply Rlt_le_trans with (1 := above_overflow).
    apply pow10_exact_mono. unfold cond_Zopp.
    now apply (scaled_exponent_ge m 5422874305198590).
Qed.

(** Below the lower threshold it is 0. *)
Lemma pow10_below_threshold (sv : double) :
  valid sv = true ->
  SFltb sv pow10_underflow_threshold = true ->
  pow10 sv = pos_zero.
Proof.
  intros Hv Hlo.
  destruct sv as [s|[|]| |[|] m e]; try discriminate; [reflexivity|].
  unfold SFltb, pow10_underflow_threshold in Hlo.
  rewrite SFcompare_negatives in Hlo.
  destruct (finite_lt_magnitude m 5692958865320786 e (-44) Hv
              ltac:(discriminate) ltac:(lia) Hlo) as [He Hm].
  destruct (Z.ltb_spec 12 (Zpos (digits2_pos m) + e)) as [Hbig|Hsmall].
  - unfold pow10. apply Z.ltb_lt in Hbig. now rewrite Hbig.
  - pose proof (pow10_rounding true m e Hsmall) as Hr.
    apply (rounding_of_underflow _ _ Hr); [apply pow10_exact_pos|].
    apply Rle_lt_trans with (2 := below_underflow).
    apply pow10_exact_mono. unfold cond_Zopp.
    pose proof (scaled_exponent_ge m 5692958865320786 e He Hm) as Hge.
    change (Zpos 5692958865320786 + 1) with 5692958865320787 in Hge. lia.
Qed.

End PowerTrichotomy.

(** ** The logarithmic round trip on doubles *)

Section RealLogChains.
Import Binary64.
Local Open Scope R_scope.

(** The computed width is the exact one up to rounding, so their ratio
    is close to one. *)
Lemma width_ratio (eta' d : R) :
  0 <= eta' ->
  Rabs (1 - d) <= bpow (-53) * Rabs d + eta' ->
  Rabs (d - 1) <= 2 * bpow (-53) + 2 * eta'.
Proof.
  rewrite bpow_m53. intros He H. apply Rabs_bounds in H. apply Rabs_le.
  split_Rabs; lra.
Qed.

Lemma scaled_by_ratio (c x d : R) :
  Rabs (d - 1) <= c -> Rabs (x * d - x) <= Rabs x * c.
Proof.
  intros H. replace (x * d - x) with (x * (d - 1)) by ring.
  rewrite Rabs_mult. apply Rmult_le_compat_l; [apply Rabs_pos|exact H].
Qed.

Lemma log_forward_chain (eta eta' delta' kappa x xd l y q : R) :
  0 <= eta -> 0 <= eta' -> 0 <= delta' ->
  Rabs (l - xd) <= delta' -> Rabs (xd - x) <= kappa ->
  Rabs (y - l) <= bpow (-53) * Rabs l + eta' ->
  Rabs (q - y) <= bpow (-53) * Rabs y + eta ->
  Rabs (q - x)
  <= 2 * delta' + 2 * kappa + bpow (-50) * Rabs x + 2 * eta' + eta.
Proof.
  rewrite bpow_m50, bpow_m53. intros He He' Hd H1 H2 H3 H4.
  apply Rabs_bounds in H1, H2, H3, H4. apply Rabs_le.
  split_Rabs; lra.
Qed.

Lemma log_backward_chain (eta eta' delta' kappa x xd l y q r : R) :
  0 <= eta -> 0 <= eta' -> 0 <= delta' ->
  Rabs (l - xd) <= delta' -> Rabs (xd - (1 - x)) <= kappa ->
  Rabs (y - l) <= bpow (-53) * Rabs l + eta' ->
  Rabs (q - y) <= bpow (-53) * Rabs y + eta ->
  Rabs (r - (1 - q)) <= bpow (-53) * Rabs (1 - q) + eta ->
  Rabs (r - x)
  <= 2 * delta' + 2 * kappa + bpow (-50) * (1 + Rabs x) + 2 * eta'
     + 4 * eta.
Proof.
  rewrite bpow_m50, bpow_m53. intros He He' Hd H1 H2 H3 H4 H5.
  apply Rabs_bounds in H1, H2, H3, H4, H5. apply Rabs_le.
  split_Rabs; lra.
Qed.

End RealLogChains.

Section LogRoundTrip.
Import Binary64.
Local Open Scope R_scope.

Variables lx ls le : double.
Variables x delta : R.
Hypotheses (Hvx : valid lx = true) (Hvs : valid ls = true)
           (Hve : valid le = true).

Let lw := SF64sub le ls.
Hypotheses (Hfw : is_finite lw = true) (Hw : SFeqb lw pos_zero = false).
Hypothesis Hdelta : 0 <= delta.

Lemma tolerance_covers (c1 c2 c3 : R) :
  c1 <= 4 -> c2 <= 4 -> c3 <= 4 -> 0 <= c1 -> 0 <= c2 -> 0 <= c3 ->
  2 * (delta / Rabs (real_value lw))
  + 2 * ((1 + Rabs x)
         * (2 * bpow (-53) + 2 * (bpow (-1075) / Rabs (real_value lw))))
  + bpow (-50) * (1 + Rabs x)
  + c1 * (bpow (-1075) / Rabs (real_value lw)) + c2 * bpow (-1075)
  <= log_roundtrip_tolerance delta x (real_value lw).
Proof.
  intros H1 H2 H3 H1' H2' H3'.
  pose proof (finite_nonzero_value lw Hfw Hw) as Hw0.
  unfold log_roundtrip_tolerance.
  assert (HW : 0 < Rabs (real_value lw)) by now apply Rabs_pos_lt.
  assert (Hi : 0 < / Rabs (real_value lw)) by now apply Rinv_0_lt_compat.
  set (I := / Rabs (real_value lw)) in *.
  pose proof (Rabs_pos x) as HA. set (A := Rabs x) in *.
  replace (bpow (-1072)) with (8 * bpow (-1075))
    by (change (-1072)%Z with (-1075 + 1 + 1 + 1)%Z; rewrite !bpow_succ; ring).
  replace (bpow (-49)) with (16 * bpow (-53))
    by (change (-49)%Z with (-53 + 1 + 1 + 1 + 1)%Z; rewrite !bpow_succ;
        ring).
  rewrite bpow_m50.
  pose proof (bpow_pos (-53)) as Hu. pose proof (bpow_pos (-1075)) as He.
  set (u := bpow (-53)) in *. set (e := bpow (-1075)) in *.
  unfold Rdiv. fold I.
  assert (0 <= e * I) by (apply Rmult_le_pos; lra).
  assert (0 <= A * e) by (apply Rmult_le_pos; lra).
  assert (0 <= A * (e * I)) by (apply Rmult_le_pos; lra).
  assert (0 <= u * A) by (apply Rmult_le_pos; lra).
  assert (0 <= c1 * (e * I) <= 4 * (e * I)) by nra.
  assert (0 <= c2 * e <= 4 * e) by nra.
  nra.
Qed.

Lemma log_roundtrip_forward :
  Rabs (real_value lx
        - (real_value ls + x * (real_value le - real_value ls))) <= delta ->
  let q := SF64div (SF64sub lx ls) lw in
  is_finite q = true ->
  Rabs (real_value q - x) <= log_roundtrip_tolerance delta x (real_value lw).
Proof.
  intros Hc q Hq. subst q.
  pose proof (div_finite_inv _ _ Hq) as Hy.
  destruct (sub_finite_inv _ _ Hy) as [Hfx Hfs].
  destruct (sub_finite_inv _ _ Hfw) as [Hfe _].
  pose proof (finite_nonzero_value lw Hfw Hw) as Hw0.
  pose proof (SF64sub_rounding le ls Hve Hvs Hfe Hfs) as R0.
  pose proof (rounding_of_valid _ _ R0) as Hvw. fold lw in R0, Hvw.
  pose proof (SF64sub_rounding lx ls Hvx Hvs Hfx Hfs) as R3.
  pose proof (rounding_of_valid _ _ R3) as Hvy.
  pose proof (SF64div_rounding _ lw Hvy Hy Hfw Hw0) as R4.
  apply rounding_of_error in R0, R3, R4; try assumption.
  set (y := real_value (SF64sub lx ls)) in *.
  set (q := real_value (SF64div (SF64sub lx ls) lw)) in *.
  set (a := real_value ls) in *. set (b := real_value le) in *.
  set (l := real_value lx) in *. set (w := real_value lw) in *.
  assert (Hu : 0 <= bpow (-53)) by apply Rlt_le, bpow_pos.
  apply (scaled_error _ _ _ _ w Hw0 Hu) in R0, R3.
  replace (w / w) with 1 in R0 by (field; exact Hw0).
  pose proof (width_ratio _ _ (eta_scaled w Hw0) R0) as Hratio.
  pose proof (scaled_by_ratio _ x _ Hratio) as Hk.
  assert (Hc' : Rabs ((l - a) / w - x * ((b - a) / w)) <= delta / Rabs w).
  { replace ((l - a) / w - x * ((b - a) / w))
      with ((l - (a + x * (b - a))) / w) by (field; exact Hw0).
    rewrite Rabs_div_eq by exact Hw0.
    apply Rmult_le_compat_r; [|exact Hc].
    apply Rlt_le, Rinv_0_lt_compat. now apply Rabs_pos_lt. }
  assert (Hd' : 0 <= delta / Rabs w).
  { apply Rmult_le_pos; [exact Hdelta|].
    apply Rlt_le, Rinv_0_lt_compat. now apply Rabs_pos_lt. }
  pose proof (log_forward_chain (bpow (-1075)) (bpow (-1075) / Rabs w)
                (delta / Rabs w) _ x (x * ((b - a) / w)) ((l - a) / w)
                (y / w) q (Rlt_le _ _ (bpow_pos _)) (eta_scaled w Hw0) Hd'
                Hc' Hk R3 R4) as H.
  apply Rle_trans with (1 := H).
  apply Rle_trans with (2 := tolerance_covers 2 1 0 ltac:(lra) ltac:(lra)
                               ltac:(lra) ltac:(lra) ltac:(lra) ltac:(lra)).
  fold w.
  pose proof (Rabs_pos x) as HA.
  pose proof (eta_scaled w Hw0) as He'.
  pose proof (bpow_pos (-53)) as Hu'. pose proof (bpow_pos (-50)) as H50.
  assert (0 <= Rabs x * (2 * bpow (-53) + 2 * (bpow (-1075) / Rabs w)))
    by (apply Rmult_le_pos; lra).
  assert (0 <= bpow (-50) * Rabs x) by (apply Rmult_le_pos; lra).
  lra.
Qed.

Lemma log_roundtrip_backward :
  Rabs (real_value lx
        - (real_value le + x * (real_value ls - real_value le))) <= delta ->
  let r := SF64sub double_one (SF64div (SF64sub lx ls) lw) in
  is_finite r = true ->
  Rabs (real_value r - x) <= log_roundtrip_tolerance delta x (real_value lw).
Proof.
  intros Hc r Hr. subst r.
  destruct (sub_finite_inv _ _ Hr) as [_ Hq].
  pose proof (div_finite_inv _ _ Hq) as Hy.
  destruct (sub_finite_inv _ _ Hy) as [Hfx Hfs].
  destruct (sub_finite_inv _ _ Hfw) as [Hfe _].
  pose proof (finite_nonzero_value lw Hfw Hw) as Hw0.
  pose proof (SF64sub_rounding le ls Hve Hvs Hfe Hfs) as R0.
  pose proof (rounding_of_valid _ _ R0) as Hvw. fold lw in R0, Hvw.
  pose proof (SF64sub_rounding lx ls Hvx Hvs Hfx Hfs) as R3.
  pose proof (rounding_of_valid _ _ R3) as Hvy.
  pose proof (SF64div_rounding _ lw Hvy Hy Hfw Hw0) as R4.
  pose proof (rounding_of_valid _ _ R4) as Hvq.
  pose proof (SF64sub_rounding double_one _ eq_refl Hvq eq_refl Hq) as R5.
  apply rounding_of_error in R0, R3, R4, R5; try assumption.
  replace (real_value double_one) with 1 in R5
    by (unfold double_one, real_value, cond_Zopp;
        change (-52)%Z with (- (52))%Z;
        rewrite bpow_opp, bpow_IZR by lia;
        change (2 ^ 52)%Z with 4503599627370496%Z; field).
  set (y := real_value (SF64sub lx ls)) in *.
  set (q := real_value (SF64div (SF64sub lx ls) lw)) in *.
  set (r := real_value (SF64sub double_one _)) in *.
  set (a := real_value ls) in *. set (b := real_value le) in *.
  set (l := real_value lx) in *. set (w := real_value lw) in *.
  assert (Hu : 0 <= bpow (-53)) by apply Rlt_le, bpow_pos.
  apply (scaled_error _ _ _ _ w Hw0 Hu) in R0, R3.
  replace (w / w) with 1 in R0 by (field; exact Hw0).
  pose proof (width_ratio _ _ (eta_scaled w Hw0) R0) as Hratio.
  pose proof (scaled_by_ratio _ (1 - x) _ Hratio) as Hk.
  assert (Hc' : Rabs ((l - a) / w - (1 - x) * ((b - a) / w))
                <= delta / Rabs w).
  { replace ((l - a) / w - (1 - x) * ((b - a) / w))
      with ((l - (b + x * (a - b))) / w) by (field; exact Hw0).
    rewrite Rabs_div_eq by exact Hw0.
    apply Rmult_le_compat_r; [|exact Hc].
    apply Rlt_le, Rinv_0_lt_compat. now apply Rabs_pos_lt. }
  assert (Hd' : 0 <= delta / Rabs w).
  { apply Rmult_le_pos; [exact Hdelta|].
    apply Rlt_le, Rinv_0_lt_compat. now apply Rabs_pos_lt. }
  pose proof (log_backward_chain (bpow (-1075)) (bpow (-1075) / Rabs w)
                (delta / Rabs w) _ x ((1 - x) * ((b - a) / w)) ((l - a) / w)
                (y / w) q r (Rlt_le _ _ (bpow_pos _)) (eta_scaled w Hw0) Hd'
                Hc' Hk R3 R4 R5) as H.
  apply Rle_trans with (1 := H).
  apply Rle_trans with (2 := tolerance_covers 2 4 0 ltac:(lra) ltac:(lra)
                               ltac:(lra) ltac:(lra) ltac:(lra) ltac:(lra)).
  fold w.
  pose proof (Rabs_pos x) as HA.
  pose proof (eta_scaled w Hw0) as He'.
  pose proof (bpow_pos (-53)) as Hu'. pose proof (bpow_pos (-50)) as H50.
  assert (H1x : Rabs (1 - x) <= 1 + Rabs x).
  { replace (1 - x) with (1 + - x) by ring.
    eapply Rle_trans; [apply Rabs_triang|].
    rewrite Rabs_R1, Rabs_Ropp. lra. }
  assert (Rabs (1 - x) * (2 * bpow (-53) + 2 * (bpow (-1075) / Rabs w))
          <= (1 + Rabs x)
             * (2 * bpow (-53) + 2 * (bpow (-1075) / Rabs w)))
    by (apply Rmult_le_compat_r; lra).
  lra.
Qed.

End LogRoundTrip.

Ltac conjuncts := repeat match goal with |- _ /\ _ => split end.
Ltac by_evaluation := conjuncts; vm_compute; reflexivity.

(** * The claims *)

Section Claims.

Import Binary64.

(** C7: on an axis whose scale kind is linear, dataPointToScaledValue and
    scaledValueToDataPoint both return their argument unchanged, whatever
    the number system and the [utils] in use (so in particular for every
    finite double). *)
Theorem linear_absolute_transforms_are_identity
    {number : Type} {N : JSNumber number} {U : Utils number}
    (graph : Dygraph) (axis : nat) (v : number) :
  logscale graph axis = false ->
  dataPointToScaledValue graph axis v = v /\
  scaledValueToDataPoint graph axis v = v.
Proof.
  intros Hlin. split.
  - now apply dataPointToScaledValue_linear_id.
  - now apply scaledValueToDataPoint_linear_id.
Qed.

Lemma linear_absolute_transforms_are_identity_witness :
  logscale sample_graph 0 = false /\
  dataPointToScaledValue (U := utils64) sample_graph 0 (of_float 42.5)
  = of_float 42.5 /\
  scaledValueToDataPoint sample_graph 0 (of_float 42.5) = of_float 42.5.
Proof.
  split; [reflexivity|].
  apply (linear_absolute_transforms_are_identity (U := utils64)).
  reflexivity.
Defined.

(** C2: on a linear axis relativeScaledValueToDataPoint returns
    [range_start + rsv * (range_end - range_start)] when [invert] is false
    and [range_end - rsv * (range_end - range_start)] when it is true, in
    every number system; on doubles, with [range_start = 0],
    [range_end = 100] and [rsv = 0.25], that is 25, and 75 inverted. *)
Theorem relativeScaledValueToDataPoint_linear :
  (forall (number : Type) (N : JSNumber number) (U : Utils number)
          (graph : Dygraph) (axis : nat)
          (rsv range_start range_end : number),
      logscale graph axis = false ->
      relativeScaledValueToDataPoint graph axis rsv range_start range_end
        false
      = add range_start (mul rsv (sub range_end range_start)) /\
      relativeScaledValueToDataPoint graph axis rsv range_start range_end
        true
      = sub range_end (mul rsv (sub range_end range_start))) /\
  relativeScaledValueToDataPoint (U := utils64) sample_graph 0
    (of_float 0.25) (of_float 0) (of_float 100) false = of_float 25 /\
  relativeScaledValueToDataPoint (U := utils64) sample_graph 0
    (of_float 0.25) (of_float 0) (of_float 100) true = of_float 75.
Proof.
  split; [|by_evaluation].
  intros number N U graph axis rsv range_start range_end Hlin.
  now rewrite !(relativeScaledValueToDataPoint_linear_eq _ _ Hlin).
Qed.

Lemma relativeScaledValueToDataPoint_linear_witness :
  logscale sample_graph 0 = false /\
  relativeScaledValueToDataPoint (U := utils64) sample_graph 0
    (of_float 0.5) (of_float (-2)) (of_float 6) false = of_float 2 /\
  relativeScaledValueToDataPoint (U := utils64) sample_graph 0
    (of_float 0.5) (of_float (-2)) (of_float 6) true = of_float 2.
Proof.
  split; [reflexivity|].
  exact (proj1 relativeScaledValueToDataPoint_linear
           double number64 utils64 sample_graph 0%nat
           (of_float 0.5) (of_float (-2)) (of_float 6) eq_refl).
Defined.

(** C5: rangeError returns false on every linear axis; on a logarithmic
    axis it is true exactly when [log_scale = 1.0 / log_range_width] or
    [log_range_width] is non-finite or NaN, where
    [log_range_width = log10(range_end) - log10(range_start)] with 1.0
    substituted for an exact zero, in every number system.  On doubles it
    is true for the bounds -1 and 10 on the logarithmic axis, false for
    them on the linear axis, and false for 1 and 1000 on the logarithmic
    axis. *)
Theorem rangeError_by_scale_kind :
  (forall (number : Type) (N : JSNumber number) (U : Utils number)
          (graph : Dygraph) (axis : nat) (range_start range_end : number),
      logscale graph axis = false ->
      rangeError graph axis range_start range_end = false) /\
  (forall (number : Type) (N : JSNumber number) (U : Utils number)
          (graph : Dygraph) (axis : nat) (range_start range_end : number),
      logscale graph axis = true ->
      rangeError graph axis range_start range_end =
      let log_range_width := sub (log10 range_end) (log10 range_start) in
      let log_range_width :=
        if strict_eq log_range_width zero then one else log_range_width in
      let log_scale := div one log_range_width in
      negb (isFinite log_scale) || isNaN log_scale ||
      negb (isFinite log_range_width) || isNaN log_range_width) /\
  rangeError (U := utils64) sample_graph 1 (of_float (-1)) (of_float 10)
  = true /\
  rangeError (U := utils64) sample_graph 0 (of_float (-1)) (of_float 10)
  = false /\
  rangeError (U := utils64) sample_graph 1 (of_float 1) (of_float 1000)
  = false.
Proof.
  split; [|split; [|by_evaluation]].
  - intros. now apply rangeError_linear_false.
  - intros. now apply rangeError_log_eq.
Qed.

Lemma rangeError_by_scale_kind_witness :
  logscale sample_graph 0 = false /\
  logscale sample_graph 1 = true /\
  rangeError (U := utils64) sample_graph 0 (of_float 0) (of_float (-3))
  = false /\
  rangeError (U := utils64) sample_graph 1 (of_float 0) (of_float 7) = true.
Proof.
  refine (conj eq_refl (conj eq_refl (conj _ _))).
  - exact (proj1 rangeError_by_scale_kind double number64 utils64
             sample_graph 0%nat (of_float 0) (of_float (-3)) eq_refl).
  - rewrite (proj1 (proj2 rangeError_by_scale_kind) double number64 utils64
               sample_graph 1%nat (of_float 0) (of_float 7) eq_refl).
    vm_compute. reflexivity.
Defined.

(** C4: on a logarithmic axis of doubles, with a [utils.log10] that is
    non-finite at every non-positive argument, dataPointToRelativeScaledValue
    of a value that is zero or negative is NaN, for every range and both
    values of [invert]; more generally a non-finite quotient is returned as
    NaN under both values of [invert], and the result without inversion is
    never an infinity. *)
Theorem log_nonpositive_value_is_NaN
    (U : Utils double)
    (log10_domain_safe :
       forall x, SFleb x pos_zero = true -> is_finite (log10 x) = false)
    (graph : Dygraph) (axis : nat)
    (value range_start range_end : double) (invert : bool) :
  logscale graph axis = true ->
  (SFleb value pos_zero = true ->
   dataPointToRelativeScaledValue graph axis value range_start range_end
     invert = S754_nan) /\
  (is_finite (log_quotient value range_start range_end) = false ->
   dataPointToRelativeScaledValue graph axis value range_start range_end
     invert = S754_nan) /\
  (forall s, dataPointToRelativeScaledValue graph axis value range_start
               range_end false <> S754_infinity s).
Proof.
  intros Hlog. split; [|split].
  - intros Hv. now apply log_nonfinite_value_gives_NaN, log10_domain_safe.
  - now apply log_nonfinite_quotient_gives_NaN.
  - intros s.
    destruct (is_finite (log_quotient value range_start range_end)) eqn:Hq.
    + rewrite (log_finite_quotient_is_returned _ _ Hlog _ _ _ _ Hq).
      intros E. rewrite E in Hq. discriminate.
    + now rewrite (log_nonfinite_quotient_gives_NaN _ _ Hlog _ _ _ _ Hq).
Qed.

Lemma log_nonpositive_value_is_NaN_witness :
  logscale sample_graph 1 = true /\
  SFleb (of_float 0) pos_zero = true /\
  dataPointToRelativeScaledValue (U := utils64) sample_graph 1
    (of_float 0) (of_float 1) (of_float 100) true = S754_nan.
Proof.
  refine (conj eq_refl (conj eq_refl _)).
  exact (proj1 (log_nonpositive_value_is_NaN utils64 utils_log10_nonpositive
                  sample_graph 1%nat (of_float 0) (of_float 1) (of_float 100)
                  true eq_refl) eq_refl).
Defined.

(** C10, as the code has it: on a logarithmic axis of doubles, with a
    [utils.log10] that is finite at every finite strictly positive double,
    rangeError of the zero-width range [(b, b)] is false for every finite
    strictly positive double [b]: the width is an exact zero, 1.0 is
    substituted, and both [log_range_width] and [log_scale] are 1. *)
Theorem rangeError_zero_width_positive_range
    (U : Utils double)
    (log10_finite_on_positive :
       forall x, valid x = true -> is_finite x = true ->
                 SFltb pos_zero x = true -> is_finite (log10 x) = true)
    (graph : Dygraph) (axis : nat) (b : double) :
  logscale graph axis = true ->
  valid b = true -> is_finite b = true -> SFltb pos_zero b = true ->
  rangeError graph axis b b = false.
Proof.
  intros Hlog Hv Hf Hpos.
  apply (rangeError_zero_log_width _ _ Hlog).
  now rewrite sub_diag by now apply log10_finite_on_positive.
Qed.

Lemma rangeError_zero_width_positive_range_witness :
  logscale sample_graph 1 = true /\
  valid (of_float 5) = true /\
  is_finite (of_float 5) = true /\
  SFltb pos_zero (of_float 5) = true /\
  rangeError (U := utils64) sample_graph 1 (of_float 5) (of_float 5) = false.
Proof.
  refine (conj eq_refl (conj eq_refl (conj eq_refl (conj eq_refl _)))).
  exact (rangeError_zero_width_positive_range utils64 utils_log10_finite
           sample_graph 1%nat (of_float 5) eq_refl eq_refl eq_refl eq_refl).
Defined.

(** C10 fails at +Infinity, which is strictly positive: on the
    logarithmic axis [log10(+Infinity) - log10(+Infinity)] is NaN, not
    zero, so nothing is substituted and rangeError reports the zero-width
    range [(+Infinity, +Infinity)]. *)
Lemma rangeError_reports_infinite_zero_width_range :
  logscale sample_graph 1 = true /\
  SFltb pos_zero (S754_infinity false) = true /\
  rangeError (U := utils64) sample_graph 1
    (S754_infinity false) (S754_infinity false) = true.
Proof. by_evaluation. Qed.

(** C6: when [range_end - range_start] is an exact zero on a linear axis,
    or [log10(range_end) - log10(range_start)] is on a logarithmic one,
    dataPointToRelativeScaledValue divides by 1.0 instead, in every number
    system.  On doubles the divisor is therefore never zero, a zero-width
    linear range gives no NaN at finite arguments, a range collapsed on the
    value itself gives 0 on either kind of axis, and
    [dataPointToRelativeScaledValue(5, 5, 5, false)] is 0 on a linear
    axis. *)
Theorem zero_width_range_divides_by_one :
  (forall (number : Type) (N : JSNumber number) (U : Utils number)
          (graph : Dygraph) (axis : nat)
          (value range_start range_end : number) (invert : bool),
      logscale graph axis = false ->
      strict_eq (sub range_end range_start) zero = true ->
      dataPointToRelativeScaledValue graph axis value range_start range_end
        invert =
      let s := div (sub value range_start) one in
      if invert then sub one s else s) /\
  (forall (number : Type) (N : JSNumber number) (U : Utils number)
          (graph : Dygraph) (axis : nat)
          (value range_start range_end : number) (invert : bool),
      logscale graph axis = true ->
      strict_eq (sub (log10 range_end) (log10 range_start)) zero = true ->
      dataPointToRelativeScaledValue graph axis value range_start range_end
        invert =
      let q := div (sub (log10 value) (log10 range_start)) one in
      let s := if isFinite q then q else NaN in
      if invert then sub one s else s) /\
  (forall w : double,
      SFeqb (if SFeqb w pos_zero then double_one else w) pos_zero = false) /\
  (forall (U : Utils double) (graph : Dygraph) (axis : nat)
          (value range_start range_end : double) (invert : bool),
      logscale graph axis = false ->
      is_finite value = true -> is_finite range_start = true ->
      SFeqb (SF64sub range_end range_start) pos_zero = true ->
      is_nan (dataPointToRelativeScaledValue graph axis value range_start
                range_end invert) = false) /\
  (forall (U : Utils double) (graph : Dygraph) (axis : nat) (b : double),
      (logscale graph axis = false -> is_finite b = true ->
       dataPointToRelativeScaledValue graph axis b b b false = pos_zero) /\
      (logscale graph axis = true -> is_finite (log10 b) = true ->
       dataPointToRelativeScaledValue graph axis b b b false = pos_zero)) /\
  dataPointToRelativeScaledValue (U := utils64) sample_graph 0
    (of_float 5) (of_float 5) (of_float 5) false = of_float 0.
Proof.
  split; [|split; [|split; [|split; [|split]]]].
  - intros number N U graph axis value range_start range_end invert Hlin Hw.
    rewrite (dataPointToRelativeScaledValue_linear_eq _ _ Hlin).
    cbv zeta. now rewrite Hw.
  - intros number N U graph axis value range_start range_end invert Hlog Hw.
    rewrite (dataPointToRelativeScaledValue_log_eq _ _ Hlog).
    unfold log_quotient. cbv zeta. now rewrite Hw.
  - exact guarded_width_not_zero.
  - intros U graph axis value range_start range_end invert.
    apply linear_zero_width_not_NaN.
  - intros U graph axis b. split.
    + apply linear_point_range_is_zero.
    + apply log_point_range_is_zero.
  - vm_compute. reflexivity.
Qed.

Lemma zero_width_range_divides_by_one_witness :
  logscale sample_graph 0 = false /\
  strict_eq (sub (of_float 7) (of_float 7)) zero = true /\
  dataPointToRelativeScaledValue (U := utils64) sample_graph 0
    (of_float 9) (of_float 7) (of_float 7) true = of_float (-1).
Proof.
  refine (conj eq_refl (conj eq_refl _)).
  exact (proj1 zero_width_range_divides_by_one double number64 utils64
           sample_graph 0%nat (of_float 9) (of_float 7) (of_float 7) true
           eq_refl eq_refl).
Defined.

(** C3: on a logarithmic axis relativeScaledValueToDataPoint returns
    [logRangeFraction(range_start, range_end, rsv)] when [invert] is false
    and [logRangeFraction(range_end, range_start, rsv)] when it is true,
    for every [utils]; with the modelled [utils], [range_start = 1],
    [range_end = 100] and [rsv = 0.5] give 10 up to [2^-30] on doubles, and
    10 in exact arithmetic. *)
Theorem relativeScaledValueToDataPoint_logarithmic :
  (forall (number : Type) (N : JSNumber number) (U : Utils number)
          (graph : Dygraph) (axis : nat)
          (rsv range_start range_end : number),
      logscale graph axis = true ->
      relativeScaledValueToDataPoint graph axis rsv range_start range_end
        false
      = logRangeFraction range_start range_end rsv /\
      relativeScaledValueToDataPoint graph axis rsv range_start range_end
        true
      = logRangeFraction range_end range_start rsv) /\
  close_to
    (relativeScaledValueToDataPoint (U := utils64) sample_graph 1
       (of_float 0.5) (of_float 1) (of_float 100) false)
    (of_float 10) = true /\
  relativeScaledValueToDataPoint (U := Ideal.utils_ideal) sample_graph 1
    (Ideal.XFin (1 / 2)) (Ideal.XFin 1) (Ideal.XFin 100) false
  = Ideal.XFin 10.
Proof.
  split; [|split].
  - intros number N U graph axis rsv range_start range_end Hlog.
    now rewrite !(relativeScaledValueToDataPoint_log_eq _ _ Hlog).
  - vm_compute. reflexivity.
  - rewrite (relativeScaledValueToDataPoint_log_eq sample_graph 1 eq_refl).
    ideal_ops. rewrite ideal_logRangeFraction by lra. f_equal.
    replace 100%R with (10 * 10)%R by lra.
    rewrite ln_mult, ln_1 by lra.
    replace (0 / ln 10 + 1 / 2 * ((ln 10 + ln 10) / ln 10 + - (0 / ln 10)))%R
      with 1%R by (field; pose proof ln_10_pos; lra).
    apply Rpower_1. lra.
Qed.

Lemma relativeScaledValueToDataPoint_logarithmic_witness :
  logscale sample_graph 1 = true /\
  relativeScaledValueToDataPoint (U := utils64) sample_graph 1
    (of_float 0) (of_float 2) (of_float 8) false
  = logRangeFraction (Utils := utils64) (of_float 2) (of_float 8) (of_float 0)
  /\
  relativeScaledValueToDataPoint (U := utils64) sample_graph 1
    (of_float 0) (of_float 2) (of_float 8) true
  = logRangeFraction (Utils := utils64) (of_float 8) (of_float 2) (of_float 0).
Proof.
  split; [reflexivity|].
  exact (proj1 relativeScaledValueToDataPoint_logarithmic
           double number64 utils64 sample_graph 1%nat
           (of_float 0) (of_float 2) (of_float 8) eq_refl).
Defined.









End Claims.

(** * Further properties of the five functions *)

(** ** Special values of double arithmetic *)

Section DoubleSpecialValues.
Import Binary64.

Lemma is_nan_eq (x : double) : is_nan x = true -> x = S754_nan.
Proof. now destruct x. Qed.

Lemma sub_nan_l (y : double) : SF64sub S754_nan y = S754_nan.
Proof. reflexivity. Qed.

Lemma add_nan_l (y : double) : SF64add S754_nan y = S754_nan.
Proof. reflexivity. Qed.

Lemma add_nan_r (x : double) : SF64add x S754_nan = S754_nan.
Proof. now destruct x. Qed.

Lemma mul_nan_l (y : double) : SF64mul S754_nan y = S754_nan.
Proof. reflexivity. Qed.

Lemma mul_nan_r (x : double) : SF64mul x S754_nan = S754_nan.
Proof. now destruct x. Qed.

Lemma div_nan_l (y : double) : SF64div S754_nan y = S754_nan.
Proof. reflexivity. Qed.

Lemma div_nan_r (x : double) : SF64div x S754_nan = S754_nan.
Proof. now destruct x. Qed.

Lemma sub_not_nan_r (x y : double) :
  is_nan x = false -> is_finite y = true -> is_nan (SF64sub x y) = false.
Proof.
  destruct y as [t| | |t n f]; try discriminate; intros Hx _;
    destruct x as [s|s| |s m e]; try discriminate;
    try reflexivity; try now destruct s, t.
  apply binary_normalize_not_nan.
Qed.

(** A zero divided by anything but a zero or a NaN is a zero. *)
Lemma zero_div (s : bool) (y : double) :
  is_nan y = false -> SFeqb y pos_zero = false ->
  SFeqb (SF64div (S754_zero s) y) pos_zero = true.
Proof. now destruct y as [t|t| |t n f]. Qed.

Lemma sub_zero_r (x : double) (s : bool) :
  is_finite x = true -> SFeqb x pos_zero = false ->
  SF64sub x (S754_zero s) = x.
Proof. now destruct x as [t| | |t n f]. Qed.

Lemma SFeqb_refl (x : double) : is_nan x = false -> SFeqb x x = true.
Proof.
  destruct x as [s|[|]| |[|] m e]; try discriminate; try reflexivity;
    intros _; unfold SFeqb, SFcompare;
    rewrite Z.compare_refl;
    change (Pos.compare_cont Eq m m) with (Pos.compare m m);
    now rewrite Pos.compare_refl.
Qed.

(** A finite double times a zero is a zero. *)
Lemma mul_zero_r (x : double) (s : bool) :
  is_finite x = true -> exists t, SF64mul x (S754_zero s) = S754_zero t.
Proof. destruct x as [t| | |t n f]; try discriminate; intros _; eexists; reflexivity. Qed.

Lemma mul_zero_l (s : bool) (y : double) :
  is_finite y = true -> exists t, SF64mul (S754_zero s) y = S754_zero t.
Proof. destruct y as [t| | |t n f]; try discriminate; intros _; eexists; reflexivity. Qed.

(** Adding or subtracting a zero leaves a finite double as [===] sees
    it. *)
Lemma add_zero_r (x : double) (s : bool) :
  is_finite x = true -> SFeqb (SF64add x (S754_zero s)) x = true.
Proof.
  destruct x as [t| | |t n f]; try discriminate; intros _.
  - now destruct t, s.
  - now apply SFeqb_refl.
Qed.

Lemma sub_zero_r_eqb (x : double) (s : bool) :
  is_finite x = true -> SFeqb (SF64sub x (S754_zero s)) x = true.
Proof.
  destruct x as [t| | |t n f]; try discriminate; intros _.
  - now destruct t, s.
  - now apply SFeqb_refl.
Qed.

End DoubleSpecialValues.

(** ** Edge behaviour on doubles *)

Section EdgeBehaviourOnDoubles.
Import Binary64.

(** X1: on a linear axis of doubles a NaN in any of the three numeric
    arguments makes dataPointToRelativeScaledValue and
    relativeScaledValueToDataPoint return NaN, under both values of
    [invert]. *)
Theorem linear_relative_transforms_propagate_NaN
    (U : Utils double) (graph : Dygraph) (axis : nat)
    (a range_start range_end : double) (invert : bool) :
  logscale graph axis = false ->
  is_nan a = true \/ is_nan range_start = true \/ is_nan range_end = true ->
  dataPointToRelativeScaledValue graph axis a range_start range_end invert
  = S754_nan /\
  relativeScaledValueToDataPoint graph axis a range_start range_end invert
  = S754_nan.
Proof.
  intros Hlin H.
  rewrite (dataPointToRelativeScaledValue_linear_eq _ _ Hlin),
          (relativeScaledValueToDataPoint_linear_eq _ _ Hlin).
  cbv zeta. double_ops.
  destruct H as [H | [H | H]]; apply is_nan_eq in H; subst;
    repeat first
      [ rewrite sub_nan_l | rewrite sub_nan_r | rewrite add_nan_l
      | rewrite add_nan_r | rewrite mul_nan_l | rewrite mul_nan_r
      | rewrite div_nan_l | rewrite div_nan_r
      | progress change (SFeqb S754_nan pos_zero) with false ];
    now destruct invert.
Qed.

Lemma linear_relative_transforms_propagate_NaN_witness :
  logscale sample_graph 0 = false /\
  (is_nan (of_float 3) = true \/ is_nan S754_nan = true \/
   is_nan (of_float 9) = true) /\
  dataPointToRelativeScaledValue (U := utils64) sample_graph 0
    (of_float 3) S754_nan (of_float 9) true = S754_nan /\
  relativeScaledValueToDataPoint (U := utils64) sample_graph 0
    (of_float 3) S754_nan (of_float 9) true = S754_nan.
Proof.
  refine (conj eq_refl (conj (or_intror (or_introl eq_refl)) _)).
  exact (linear_relative_transforms_propagate_NaN utils64 sample_graph 0%nat
           (of_float 3) S754_nan (of_float 9) true eq_refl
           (or_intror (or_introl eq_refl))).
Defined.

(** X2: on a linear axis of doubles, with a finite [range_start] and a
    finite width [range_end - range_start], dataPointToRelativeScaledValue
    of an infinite value is an infinity under both values of [invert]: the
    linear branch does not turn infinities into NaN as the logarithmic one
    does. *)
Theorem linear_infinite_value_stays_infinite
    (U : Utils double) (graph : Dygraph) (axis : nat)
    (s : bool) (range_start range_end : double) (invert : bool) :
  logscale graph axis = false ->
  is_finite range_start = true ->
  is_finite (SF64sub range_end range_start) = true ->
  exists t,
    dataPointToRelativeScaledValue (number := double) graph axis
      (S754_infinity s) range_start range_end invert = S754_infinity t.
Proof.
  intros Hlin Hs Hw.
  rewrite (dataPointToRelativeScaledValue_linear_eq _ _ Hlin).
  cbv zeta. double_ops.
  assert (Hf : is_finite (if SFeqb (SF64sub range_end range_start) pos_zero
                          then double_one
                          else SF64sub range_end range_start) = true)
    by (destruct (SFeqb _ _); [reflexivity | exact Hw]).
  pose proof (guarded_width_not_zero (SF64sub range_end range_start)) as Hnz.
  destruct (if SFeqb _ _ then _ else _) as [t|t| |t n f];
    try discriminate.
  assert (Hnum : SF64sub (S754_infinity s) range_start = S754_infinity s)
    by (now destruct range_start).
  rewrite Hnum.
  destruct invert; eexists; reflexivity.
Qed.

Lemma linear_infinite_value_stays_infinite_witness :
  logscale sample_graph 0 = false /\
  is_finite (of_float 1) = true /\
  is_finite (SF64sub (of_float 4) (of_float 1)) = true /\
  exists t,
    dataPointToRelativeScaledValue (U := utils64) sample_graph 0
      (S754_infinity false) (of_float 1) (of_float 4) true
    = S754_infinity t.
Proof.
  refine (conj eq_refl (conj eq_refl (conj eq_refl _))).
  exact (linear_infinite_value_stays_infinite utils64 sample_graph 0%nat
           false (of_float 1) (of_float 4) true eq_refl eq_refl eq_refl).
Defined.

(** X3: on doubles, for either scale kind and every [utils], when the
    scaled value of [range_start] is finite and that of [range_end] is not
    NaN, dataPointToRelativeScaledValue of [range_start] itself is a zero
    ([=== 0]) without inversion and exactly 1 with it; this includes
    zero-width and reversed ranges. *)
Theorem range_start_is_at_relative_zero
    (U : Utils double) (graph : Dygraph) (axis : nat)
    (range_start range_end : double) :
  is_finite (dataPointToScaledValue graph axis range_start) = true ->
  is_nan (dataPointToScaledValue graph axis range_end) = false ->
  SFeqb (dataPointToRelativeScaledValue graph axis range_start range_start
           range_end false) pos_zero = true /\
  dataPointToRelativeScaledValue graph axis range_start range_start
    range_end true = double_one.
Proof.
  assert (Hcore : forall ls d : double,
             is_finite ls = true -> is_nan d = false ->
             SFeqb d pos_zero = false ->
             let q := SF64div (SF64sub ls ls) d in
             SFeqb q pos_zero = true /\ is_finite q = true /\
             SF64sub double_one q = double_one).
  { intros ls d Hls Hn Hnz. cbv zeta. rewrite (sub_diag ls Hls).
    destruct d as [t|t| |t n f]; try discriminate;
      (split; [reflexivity | split; reflexivity]). }
  assert (Hdiv : forall ls le : double,
             is_finite ls = true -> is_nan le = false ->
             is_nan (if SFeqb (SF64sub le ls) pos_zero then double_one
                     else SF64sub le ls) = false).
  { intros ls le Hls Hle.
    destruct (SFeqb (SF64sub le ls) pos_zero); [reflexivity|].
    now apply sub_not_nan_r. }
  destruct (logscale graph axis) eqn:Hk; intros Hs He.
  - rewrite (dataPointToScaledValue_log_eq _ _ Hk) in Hs, He.
    rewrite !(dataPointToRelativeScaledValue_log_eq _ _ Hk).
    unfold log_quotient. cbv zeta. double_ops.
    destruct (Hcore _ _ Hs (Hdiv _ _ Hs He) (guarded_width_not_zero _))
      as (H0 & Hf & H1).
    rewrite Hf. split; assumption.
  - rewrite (dataPointToScaledValue_linear_id _ _ Hk) in Hs, He.
    rewrite !(dataPointToRelativeScaledValue_linear_eq _ _ Hk).
    cbv zeta. double_ops.
    destruct (Hcore _ _ Hs (Hdiv _ _ Hs He) (guarded_width_not_zero _))
      as (H0 & Hf & H1).
    split; assumption.
Qed.

Lemma range_start_is_at_relative_zero_witness :
  is_finite (dataPointToScaledValue (U := utils64) sample_graph 1
               (of_float 20)) = true /\
  is_nan (dataPointToScaledValue (U := utils64) sample_graph 1
            (of_float 3)) = false /\
  SFeqb (dataPointToRelativeScaledValue (U := utils64) sample_graph 1
           (of_float 20) (of_float 20) (of_float 3) false) pos_zero = true /\
  dataPointToRelativeScaledValue (U := utils64) sample_graph 1
    (of_float 20) (of_float 20) (of_float 3) true = double_one.
Proof.
  refine (conj eq_refl (conj eq_refl _)).
  exact (range_start_is_at_relative_zero utils64 sample_graph 1%nat
           (of_float 20) (of_float 3) eq_refl eq_refl).
Defined.

(** X4: on a linear axis of doubles with finite bounds and a finite width,
    relativeScaledValueToDataPoint of a zero [rsv] is [range_start], and
    [range_end] when inverted, as [===] compares them. *)
Theorem relative_zero_is_the_near_bound
    (U : Utils double) (graph : Dygraph) (axis : nat)
    (rsv range_start range_end : double) :
  logscale graph axis = false ->
  SFeqb rsv pos_zero = true ->
  is_finite range_start = true -> is_finite range_end = true ->
  is_finite (SF64sub range_end range_start) = true ->
  SFeqb (relativeScaledValueToDataPoint graph axis rsv range_start range_end
           false) range_start = true /\
  SFeqb (relativeScaledValueToDataPoint graph axis rsv range_start range_end
           true) range_end = true.
Proof.
  intros Hlin Hz Hs He Hw.
  rewrite !(relativeScaledValueToDataPoint_linear_eq _ _ Hlin).
  double_ops.
  assert (Hrsv : exists s, rsv = S754_zero s)
    by (destruct rsv as [s|[|]| |[|] m e]; try discriminate; eauto).
  destruct Hrsv as [s ->].
  destruct (mul_zero_l s _ Hw) as [t ->].
  split; [now apply add_zero_r | now apply sub_zero_r_eqb].
Qed.

Lemma relative_zero_is_the_near_bound_witness :
  logscale sample_graph 0 = false /\
  SFeqb (S754_zero true) pos_zero = true /\
  is_finite (of_float (-3)) = true /\ is_finite (of_float 8) = true /\
  is_finite (SF64sub (of_float 8) (of_float (-3))) = true /\
  SFeqb (relativeScaledValueToDataPoint (U := utils64) sample_graph 0
           (S754_zero true) (of_float (-3)) (of_float 8) false)
    (of_float (-3)) = true /\
  SFeqb (relativeScaledValueToDataPoint (U := utils64) sample_graph 0
           (S754_zero true) (of_float (-3)) (of_float 8) true)
    (of_float 8) = true.
Proof.
  refine (conj eq_refl (conj eq_refl (conj eq_refl (conj eq_refl
            (conj eq_refl _))))).
  exact (relative_zero_is_the_near_bound utils64 sample_graph 0%nat
           (S754_zero true) (of_float (-3)) (of_float 8)
           eq_refl eq_refl eq_refl eq_refl eq_refl).
Defined.

(** X5: on a linear axis of doubles a zero-width range [(b, b)] with [b]
    finite sends every finite [rsv] to [b], as [===] compares them, under
    both values of [invert]. *)
Theorem zero_width_range_maps_to_its_bound
    (U : Utils double) (graph : Dygraph) (axis : nat)
    (rsv b : double) (invert : bool) :
  logscale graph axis = false ->
  is_finite rsv = true -> is_finite b = true ->
  SFeqb (relativeScaledValueToDataPoint graph axis rsv b b invert) b = true.
Proof.
  intros Hlin Hr Hb.
  rewrite (relativeScaledValueToDataPoint_linear_eq _ _ Hlin).
  double_ops. rewrite (sub_diag b Hb).
  destruct (mul_zero_r rsv false Hr) as [t Ht].
  change pos_zero with (S754_zero false). rewrite Ht.
  destruct invert; [now apply sub_zero_r_eqb | now apply add_zero_r].
Qed.

Lemma zero_width_range_maps_to_its_bound_witness :
  logscale sample_graph 0 = false /\
  is_finite (of_float 0.75) = true /\ is_finite (of_float 5) = true /\
  SFeqb (relativeScaledValueToDataPoint (U := utils64) sample_graph 0
           (of_float 0.75) (of_float 5) (of_float 5) true)
    (of_float 5) = true.
Proof.
  refine (conj eq_refl (conj eq_refl (conj eq_refl _))).
  exact (zero_width_range_maps_to_its_bound utils64 sample_graph 0%nat
           (of_float 0.75) (of_float 5) true eq_refl eq_refl eq_refl).
Defined.

(** X6: on a logarithmic axis of doubles, with a [utils.log10] that is
    non-finite at every non-positive argument, rangeError is true as soon
    as one of the two bounds is zero or negative; and whenever rangeError
    is false the logarithms of both bounds are finite. *)
Theorem rangeError_reports_nonpositive_bound
    (U : Utils double)
    (log10_domain_safe :
       forall x, SFleb x pos_zero = true -> is_finite (log10 x) = false)
    (graph : Dygraph) (axis : nat) (range_start range_end : double) :
  logscale graph axis = true ->
  (SFleb range_start pos_zero = true \/ SFleb range_end pos_zero = true ->
   rangeError graph axis range_start range_end = true) /\
  (rangeError graph axis range_start range_end = false ->
   is_finite (log10 range_start) = true /\
   is_finite (log10 range_end) = true).
Proof.
  intros Hlog. split.
  - intros [H | H]; apply (rangeError_nonfinite_log _ _ Hlog);
      [left | right]; now apply log10_domain_safe.
  - intros Hr.
    destruct (is_finite (log10 range_start)) eqn:Hs;
      destruct (is_finite (log10 range_end)) eqn:He; try (split; reflexivity);
      rewrite (rangeError_nonfinite_log _ _ Hlog) in Hr;
      try discriminate; auto.
Qed.

Lemma rangeError_reports_nonpositive_bound_witness :
  logscale sample_graph 1 = true /\
  (SFleb (of_float 2) pos_zero = true \/
   SFleb (of_float (-7)) pos_zero = true) /\
  rangeError (U := utils64) sample_graph 1 (of_float 2) (of_float (-7))
  = true.
Proof.
  refine (conj eq_refl (conj (or_intror eq_refl) _)).
  exact (proj1 (rangeError_reports_nonpositive_bound utils64
                  utils_log10_nonpositive sample_graph 1%nat
                  (of_float 2) (of_float (-7)) eq_refl)
           (or_intror eq_refl)).
Defined.

End EdgeBehaviourOnDoubles.
